(** * RoonExtension: a facade over the Roon API client

  Shallow embedding of [packages/roon-kit/src/RoonExtension.ts].

  The class is modelled as a state record threaded through a small
  state-and-exception monad.  Objects that the class shares with its
  environment (the [TransientObject] holding the paired core, the arrays
  of provided services handed in by the host) live in heaps indexed by
  references, so that aliasing is visible.  Every call the class makes on
  a collaborator (the event emitter it extends, the Roon API client, the
  status service, the console, the transport service of a core) is
  appended to one call log, in program order. *)

From stdpp Require Import base option list gmap strings.

Set Default Proof Using "Type".

(** ** Types imported from [./interfaces]

  The facade never looks inside these values: it stores them and passes
  them on.  They are the parameters of the development. *)

Class Interfaces := {
  RoonCore : Type;
  RoonExtensionDescription : Type;
  RoonSubscriptionResponse : Type;
  RoonApiTransportOutputs : Type;
  RoonApiTransportZones : Type;
  WSConnectOptions : Type;
  (* a service object written by the host application *)
  HostService : Type;
}.

(** References into the heaps of the model. *)
Abbreviation ref := nat (only parsing).

(** ** [TransientObject], from [./internals] *)

Module TransientObject.

(** Modelled from the spec: the class [TransientObject] of [./internals],
    the "Pairing Slot" of the specification: a resettable single-value
    future with the states [empty] and [filled core].  The only
    transition is [empty] to [filled core], on [resolve]; a filled slot
    keeps the value it holds.  Discarding a slot leaves what it holds in
    place, so that a waiter resolved earlier keeps its core. *)
Inductive slot (T : Type) : Type :=
| empty
| filled (held : T).
Global Arguments empty {T}.
Global Arguments filled {T} held.

(** Modelled from the spec: an instance of the class, the slot and
    whether it has been discarded. *)
Record t (T : Type) : Type := Build {
  state : slot T;
  discarded : bool;
}.
Global Arguments Build {T} state discarded.
Global Arguments state {T} _.
Global Arguments discarded {T} _.

(** Modelled from the spec: what a waiter on the promise of
    [getObject()] observes, a pending promise or the held core. *)
Inductive settlement (T : Type) : Type :=
| Pending
| Resolved (value : T).
Global Arguments Pending {T}.
Global Arguments Resolved {T} value.

Section Ops.
Context {T : Type}.

(** Modelled from the spec: [new TransientObject()], a fresh empty
    slot. *)
Definition new : t T := Build empty false.

(** Modelled from the spec: [resolve(value)], the transition from
    [empty] to [filled value]. *)
Definition resolve (value : T) (o : t T) : t T :=
  match state o with
  | empty => Build (filled value) (discarded o)
  | filled _ => o
  end.

(** Modelled from the spec: [dispose()], the slot is discarded. *)
Definition dispose (o : t T) : t T := Build (state o) true.

(** Modelled from the spec: the promise handed out by [getObject()]
    is pending while the slot is empty and resolved with the held
    core once it is filled. *)
Definition getObject (o : t T) : settlement T :=
  match state o with
  | empty => Pending
  | filled held => Resolved held
  end.
End Ops.

End TransientObject.

(** ** Options *)

Inductive RoonServiceRequired := not_required | required | optional.

Inductive LogLevel := log_none | log_all.

Global Instance RoonServiceRequired_eq_dec : EqDecision RoonServiceRequired.
Proof. solve_decision. Defined.
Global Instance LogLevel_eq_dec : EqDecision LogLevel.
Proof. solve_decision. Defined.

(** An optional property [p?: T] reads as [undefined] ([None]) or a value. *)
Record RoonExtensionOptions `{Interfaces} := {
  description : RoonExtensionDescription;
  log_level : option LogLevel;
  RoonApiBrowse : option RoonServiceRequired;
  RoonApiImage : option RoonServiceRequired;
  RoonApiTransport : option RoonServiceRequired;
  subscribe_outputs : option bool;
  subscribe_zones : option bool;
}.

(** [Partial<RoonExtensionOptions>]: every property may be missing
  (outer [None]); a property that is there carries a value of the
  property's type, [undefined] included for the optional ones. *)
Record PartialOptions `{Interfaces} := {
  p_description : option RoonExtensionDescription;
  p_log_level : option (option LogLevel);
  p_RoonApiBrowse : option (option RoonServiceRequired);
  p_RoonApiImage : option (option RoonServiceRequired);
  p_RoonApiTransport : option (option RoonServiceRequired);
  p_subscribe_outputs : option (option bool);
  p_subscribe_zones : option (option bool);
}.

(** JavaScript truthiness of a [boolean | undefined]. *)
Definition truthy (b : option bool) : bool := default false b.

(** ** Services *)

(** The service classes of [RoonKit] that an extension can request. *)
Inductive RequestedRoonServices :=
| RoonKit_RoonApiBrowse
| RoonKit_RoonApiImage
| RoonKit_RoonApiTransport.

(** A provided service is the extension's own [RoonApiStatus] instance
  ([this._status]) or a service of the host. *)
Inductive ProvidedRoonServices `{Interfaces} :=
| this_status
| host_service (svc : HostService).

(** ** Events, callbacks and the call log *)

Section Model.
Context `{Interfaces}.

(** The four events of the facade, with their payloads. *)
Inductive Event :=
| ev_core_paired (core : RoonCore)
| ev_core_unpaired (core : RoonCore)
| ev_subscribe_outputs (core : RoonCore) (response : RoonSubscriptionResponse)
    (body : RoonApiTransportOutputs)
| ev_subscribe_zones (core : RoonCore) (response : RoonSubscriptionResponse)
    (body : RoonApiTransportZones).

(** The arrow functions that [core_paired] hands to the transport
    service, as closures over the variable [core]:
    [(r, b) => this.emit("subscribe_outputs", core, r, b)] and
    [(r, b) => this.emit("subscribe_zones", core, r, b)]. *)
Inductive OutputsCallback := emit_subscribe_outputs (core : RoonCore).
Inductive ZonesCallback := emit_subscribe_zones (core : RoonCore).

(** A subscription held by the transport service of the core
    [service_of]. *)
Inductive Subscription :=
| outputs_subscription (service_of : RoonCore) (cb : OutputsCallback)
| zones_subscription (service_of : RoonCore) (cb : ZonesCallback).

(** Calls on collaborators. *)
Inductive Call :=
| RoonKit_createRoonApi (d : RoonExtensionDescription) (ll : option LogLevel)
| new_RoonApiStatus
| new_TransientObject (t : ref)
| TransientObject_resolve (t : ref) (core : RoonCore)
| TransientObject_dispose (t : ref)
| emit (e : Event)
| transport_subscribe_outputs (core : RoonCore) (cb : OutputsCallback)
| transport_subscribe_zones (core : RoonCore) (cb : ZonesCallback)
| api_init_services (required_services optional_services : list RequestedRoonServices)
    (provided_services : ref)
| api_start_discovery
| api_ws_connect (options : WSConnectOptions)
| status_set_status (message : string) (is_error : bool)
| console_error (line : string)
| console_log (line : string).

(** ** State *)

Record State := mkState {
  (* the fields of the instance *)
  _options : RoonExtensionOptions;
  _core : option ref;
  (* the objects it shares with its environment *)
  transients : gmap nat (TransientObject.t RoonCore);
  arrays : gmap nat (list ProvidedRoonServices);
  subscriptions : list Subscription;
  (* calls made so far, oldest first *)
  calls : list Call;
}.

Definition set_options (o : RoonExtensionOptions) (s : State) : State :=
  mkState o (_core s) (transients s) (arrays s) (subscriptions s) (calls s).
Definition set_core (c : option ref) (s : State) : State :=
  mkState (_options s) c (transients s) (arrays s) (subscriptions s) (calls s).
Definition set_transients (h : gmap nat (TransientObject.t RoonCore)) (s : State) : State :=
  mkState (_options s) (_core s) h (arrays s) (subscriptions s) (calls s).
Definition set_arrays (h : gmap nat (list ProvidedRoonServices)) (s : State) : State :=
  mkState (_options s) (_core s) (transients s) h (subscriptions s) (calls s).
Definition set_subscriptions (l : list Subscription) (s : State) : State :=
  mkState (_options s) (_core s) (transients s) (arrays s) l (calls s).
Definition set_calls (l : list Call) (s : State) : State :=
  mkState (_options s) (_core s) (transients s) (arrays s) (subscriptions s) l.

(** ** Computations that may throw *)

Inductive Exception :=
| Error (message : string)
| TypeError.

Inductive Result (A : Type) :=
| Ok (a : A)
| Throw (e : Exception).
Global Arguments Ok {A} a.
Global Arguments Throw {A} e.

(** A method body: it runs on a state and returns or throws; what it did
    before it threw stays done. *)
Definition M (A : Type) : Type := State → Result A * State.

Global Instance M_ret : MRet M := λ A a s, (Ok a, s).
Global Instance M_bind : MBind M := λ A B f m s,
  match m s with
  | (Ok a, s') => f a s'
  | (Throw e, s') => (Throw e, s')
  end.

Definition throw {A} (e : Exception) : M A := λ s, (Throw e, s).
Definition get : M State := λ s, (Ok s, s).
Definition modify (f : State → State) : M unit := λ s, (Ok tt, f s).
Definition call (c : Call) : M unit := modify (λ s, set_calls (calls s ++ [c]) s).
Definition this_options : M RoonExtensionOptions := λ s, (Ok (_options s), s).
Definition when (b : bool) (m : M unit) : M unit := if b then m else mret tt.

(** [this._core!.m(...)]: the assertion [!] is erased at run time, and a
    method call on [undefined] throws a [TypeError]. *)
Definition this_core_nonnull : M ref :=
  s ← get;
  match _core s with
  | Some t => mret t
  | None => throw TypeError
  end.

(** The three errors that the class throws. *)
Definition already_started : Exception :=
  Error "RoonExtension: Discovery has already been started.".

Definition not_started : Exception :=
  Error "RoonExtension: Discovery hasn't been started yet. Call start_discovery() first.".

Definition cannot_update : Exception :=
  Error "RoonExtension: Can't update options after discovery has been started.".

(** ** Heap operations *)

(** Modelled from the spec: [new TransientObject()] makes an empty slot;
    it is a new object, at a reference not in use. *)
Definition alloc_transient : M ref := λ s,
  let t := fresh (dom (transients s)) in
  (Ok t, set_calls (calls s ++ [new_TransientObject t])
           (set_transients (<[t := TransientObject.new]> (transients s)) s)).

(** Modelled from the spec: [t.resolve(core)] resolves the slot with the
    core and returns that core. *)
Definition transient_resolve (t : ref) (core : RoonCore) : M RoonCore := λ s,
  (Ok core, set_calls (calls s ++ [TransientObject_resolve t core])
              (set_transients (alter (TransientObject.resolve core) t (transients s)) s)).

(** Modelled from the spec: [t.dispose()] discards the slot. *)
Definition transient_dispose (t : ref) : M unit := λ s,
  (Ok tt, set_calls (calls s ++ [TransientObject_dispose t])
            (set_transients (alter TransientObject.dispose t (transients s)) s)).

(** An array literal, evaluated to a new array object. *)
Definition new_array (elements : list ProvidedRoonServices) : M ref := λ s,
  let a := fresh (dom (arrays s)) in
  (Ok a, set_arrays (<[a := elements]> (arrays s)) s).

(** [a.push(x)] *)
Definition array_push (a : ref) (x : ProvidedRoonServices) : M unit :=
  modify (λ s, set_arrays (alter (λ elements, elements ++ [x]) a (arrays s)) s).

(** Modelled from the spec: [t.getObject()] hands out the promise of the
    slot [t], the same one at every call; what the promise is settled with
    is read from the slot. *)
Inductive Promise := promise_of (t : ref).

Definition transient_getObject (t : ref) : M Promise := mret (promise_of t).

Definition settled (s : State) (p : Promise) : TransientObject.settlement RoonCore :=
  match p with
  | promise_of t =>
      match transients s !! t with
      | Some o => TransientObject.getObject o
      | None => TransientObject.Pending
      end
  end.

(** ** The class *)

(** The constructor: [this._options = {...options}], then the transport
    service is made required when a subscription is asked for, then the
    API client and the status service are created. *)
Definition constructor_options (options : RoonExtensionOptions) : RoonExtensionOptions :=
  let _options := options in
  let hasSubscriptions := truthy (subscribe_outputs _options) || truthy (subscribe_zones _options) in
  if hasSubscriptions
  then {| description := description _options;
          log_level := log_level _options;
          RoonApiBrowse := RoonApiBrowse _options;
          RoonApiImage := RoonApiImage _options;
          RoonApiTransport := Some required;
          subscribe_outputs := subscribe_outputs _options;
          subscribe_zones := subscribe_zones _options |}
  else _options.

Definition constructor (options : RoonExtensionOptions) : State :=
  {| _options := constructor_options options;
     _core := None;
     transients := ∅;
     arrays := ∅;
     subscriptions := [];
     calls := [RoonKit_createRoonApi (description options) (log_level options);
               new_RoonApiStatus] |}.

(** The two callbacks given to [RoonKit.createRoonApi].  A core has its
    transport service at [core.services.RoonApiTransport], as the type
    [RoonCore] says; subscribing appends to the list of subscriptions. *)
Definition core_paired (newCore : RoonCore) : M unit :=
  t ← this_core_nonnull;
  core ← transient_resolve t newCore;
  call (emit (ev_core_paired core));;
  o ← this_options;
  when (truthy (subscribe_outputs o))
    (call (transport_subscribe_outputs core (emit_subscribe_outputs core));;
     modify (λ s, set_subscriptions
       (subscriptions s ++ [outputs_subscription core (emit_subscribe_outputs core)]) s));;
  o ← this_options;
  when (truthy (subscribe_zones o))
    (call (transport_subscribe_zones core (emit_subscribe_zones core));;
     modify (λ s, set_subscriptions
       (subscriptions s ++ [zones_subscription core (emit_subscribe_zones core)]) s)).

Definition core_unpaired (oldCore : RoonCore) : M unit :=
  call (emit (ev_core_unpaired oldCore));;
  t ← this_core_nonnull;
  transient_dispose t;;
  t' ← alloc_transient;
  modify (set_core (Some t')).

Definition requireService (setting : option RoonServiceRequired) (svc : RequestedRoonServices)
    (lists : list RequestedRoonServices * list RequestedRoonServices)
  : list RequestedRoonServices * list RequestedRoonServices :=
  let '(required_services, optional_services) := lists in
  match setting with
  | Some required => (required_services ++ [svc], optional_services)
  | Some optional => (required_services, optional_services ++ [svc])
  | Some not_required => (required_services, optional_services)
  | None => (required_services, optional_services)
  end.

Definition instantiateCore : M unit :=
  s ← get;
  match _core s with
  | Some _ => throw already_started
  | None =>
      t ← alloc_transient;
      modify (set_core (Some t))
  end.

Definition initializeServices (provided_services : ref) : M unit :=
  array_push provided_services this_status;;
  o ← this_options;
  let lists := ([], []) in
  let lists := requireService (RoonApiBrowse o) RoonKit_RoonApiBrowse lists in
  let lists := requireService (RoonApiImage o) RoonKit_RoonApiImage lists in
  let lists := requireService (RoonApiTransport o) RoonKit_RoonApiTransport lists in
  call (api_init_services lists.1 lists.2 provided_services).

(** A parameter with the default value [[]]: the array literal is
    evaluated on entry when the argument is missing. *)
Definition provided_services_or_default (provided_services : option ref) : M ref :=
  match provided_services with
  | Some a => mret a
  | None => new_array []
  end.

Definition start_discovery (provided_services : option ref) : M unit :=
  provided_services ← provided_services_or_default provided_services;
  instantiateCore;;
  initializeServices provided_services;;
  call api_start_discovery.

Definition ws_connect (options : WSConnectOptions) (provided_services : option ref) : M unit :=
  provided_services ← provided_services_or_default provided_services;
  instantiateCore;;
  initializeServices provided_services;;
  call (api_ws_connect options).

Definition set_status (message : string) (is_error : option bool) : M unit :=
  let is_error := default false is_error in
  call (status_set_status message is_error);;
  o ← this_options;
  when (bool_decide (log_level o ≠ Some log_none))
    (if is_error
     then call (console_error ("Extension Error: " +:+ message))
     else call (console_log ("Extension Status: " +:+ message))).

(** [Object.assign(target, source)] on option objects: the properties
    that [source] has replace those of [target]. *)
Definition Object_assign (target : RoonExtensionOptions) (source : PartialOptions)
  : RoonExtensionOptions :=
  {| description := default (description target) (p_description source);
     log_level := default (log_level target) (p_log_level source);
     RoonApiBrowse := default (RoonApiBrowse target) (p_RoonApiBrowse source);
     RoonApiImage := default (RoonApiImage target) (p_RoonApiImage source);
     RoonApiTransport := default (RoonApiTransport target) (p_RoonApiTransport source);
     subscribe_outputs := default (subscribe_outputs target) (p_subscribe_outputs source);
     subscribe_zones := default (subscribe_zones target) (p_subscribe_zones source) |}.

Definition update_options (options : PartialOptions) : M unit :=
  s ← get;
  match _core s with
  | Some _ => throw cannot_update
  | None => modify (set_options (Object_assign (_options s) options))
  end.

Definition ensureStarted : M ref :=
  s ← get;
  match _core s with
  | None => throw not_started
  | Some t => mret t
  end.

Definition get_core : M Promise :=
  transient ← ensureStarted;
  transient_getObject transient.

(** ** The transport service calls back *)

(** The transport service hands an update of a feed to the callback of
    one of its subscriptions, given by its position in the list. *)
Definition OutputsCallback_apply (cb : OutputsCallback)
    (r : RoonSubscriptionResponse) (b : RoonApiTransportOutputs) : M unit :=
  match cb with
  | emit_subscribe_outputs core => call (emit (ev_subscribe_outputs core r b))
  end.

Definition ZonesCallback_apply (cb : ZonesCallback)
    (r : RoonSubscriptionResponse) (b : RoonApiTransportZones) : M unit :=
  match cb with
  | emit_subscribe_zones core => call (emit (ev_subscribe_zones core r b))
  end.

Definition deliver_outputs (i : nat) (r : RoonSubscriptionResponse)
    (b : RoonApiTransportOutputs) : M unit :=
  s ← get;
  match subscriptions s !! i with
  | Some (outputs_subscription _ cb) => OutputsCallback_apply cb r b
  | _ => mret tt
  end.

Definition deliver_zones (i : nat) (r : RoonSubscriptionResponse)
    (b : RoonApiTransportZones) : M unit :=
  s ← get;
  match subscriptions s !! i with
  | Some (zones_subscription _ cb) => ZonesCallback_apply cb r b
  | _ => mret tt
  end.

(** ** Histories

    What can happen to an instance, one step at a time: the host calls a
    method or makes an array, the API client fires one of the two
    callbacks, a transport service delivers an update.  A call that throws
    is a step like any other: the host catches the exception and goes
    on. *)
Inductive Op :=
| op_start_discovery (provided_services : option ref)
| op_ws_connect (options : WSConnectOptions) (provided_services : option ref)
| op_set_status (message : string) (is_error : option bool)
| op_update_options (options : PartialOptions)
| op_get_core
| op_core_paired (core : RoonCore)
| op_core_unpaired (core : RoonCore)
| op_deliver_outputs (i : nat) (r : RoonSubscriptionResponse) (b : RoonApiTransportOutputs)
| op_deliver_zones (i : nat) (r : RoonSubscriptionResponse) (b : RoonApiTransportZones)
| op_new_array (elements : list ProvidedRoonServices).

Definition discard {A} (m : M A) : M unit := m;; mret tt.

Definition run (o : Op) : M unit :=
  match o with
  | op_start_discovery a => start_discovery a
  | op_ws_connect options a => ws_connect options a
  | op_set_status message is_error => set_status message is_error
  | op_update_options options => update_options options
  | op_get_core => discard get_core
  | op_core_paired core => core_paired core
  | op_core_unpaired core => core_unpaired core
  | op_deliver_outputs i r b => deliver_outputs i r b
  | op_deliver_zones i r b => deliver_zones i r b
  | op_new_array elements => discard (new_array elements)
  end.

Definition after (o : Op) (s : State) : State := (run o s).2.

Definition exec (ops : list Op) (s : State) : State := foldl (λ s o, after o s) s ops.

Definition is_start (o : Op) : bool :=
  match o with
  | op_start_discovery _ | op_ws_connect _ _ => true
  | _ => false
  end.

Definition is_pairing (o : Op) : bool :=
  match o with
  | op_core_paired _ => true
  | _ => false
  end.

Definition is_unpairing (o : Op) : bool :=
  match o with
  | op_core_unpaired _ => true
  | _ => false
  end.

(** No start, no pairing notification, no unpairing notification in a
    history. *)
Definition no_start (ops : list Op) : bool := forallb (λ o, negb (is_start o)) ops.
Definition no_pairing (ops : list Op) : bool := forallb (λ o, negb (is_pairing o)) ops.
Definition no_unpairing (ops : list Op) : bool := forallb (λ o, negb (is_unpairing o)) ops.

(** ** The pairing slot of a state *)

(** The slot at [t] exists and is in state [st]. *)
Definition holds (s : State) (t : ref) (st : TransientObject.slot RoonCore) : Prop :=
  ∃ obj, transients s !! t = Some obj ∧ TransientObject.state obj = st.

(** The current slot is an empty one: callers of [get_core] wait. *)
Definition waiting (s : State) : Prop :=
  ∃ t, _core s = Some t ∧ holds s t TransientObject.empty.

(** The current slot is [t] and it holds [core]. *)
Definition paired_with (s : State) (t : ref) (core : RoonCore) : Prop :=
  _core s = Some t ∧ holds s t (TransientObject.filled core).

(** [new] is what a merge makes of the property [old] when the source
    object supplies [supplied]: a supplied value overwrites, a missing
    property leaves the old value. *)
Definition merged {A} (old : A) (supplied : option A) (new : A) : Prop :=
  match supplied with
  | Some v => new = v
  | None => new = old
  end.

(** The events emitted in a call log, oldest first. *)
Definition emitted (cs : list Call) : list Event :=
  omap (λ c, match c with emit e => Some e | _ => None end) cs.

(** ** Reading a call log and a history *)

(** The requirement that the options give for a service class. *)
Definition setting_of (o : RoonExtensionOptions) (svc : RequestedRoonServices)
  : option RoonServiceRequired :=
  match svc with
  | RoonKit_RoonApiBrowse => RoonApiBrowse o
  | RoonKit_RoonApiImage => RoonApiImage o
  | RoonKit_RoonApiTransport => RoonApiTransport o
  end.

(** The same for a partial options object: [None] when the property is
    missing. *)
Definition p_setting_of (p : PartialOptions) (svc : RequestedRoonServices)
  : option (option RoonServiceRequired) :=
  match svc with
  | RoonKit_RoonApiBrowse => p_RoonApiBrowse p
  | RoonKit_RoonApiImage => p_RoonApiImage p
  | RoonKit_RoonApiTransport => p_RoonApiTransport p
  end.

(** The steps that are method calls of the host, as opposed to callbacks
    of the API client and of a transport service. *)
Definition is_host_call (o : Op) : bool :=
  match o with
  | op_start_discovery _ | op_ws_connect _ _ | op_set_status _ _
  | op_update_options _ | op_get_core | op_new_array _ => true
  | _ => false
  end.

(** The calls on the API client in a call log. *)
Definition api_calls (cs : list Call) : list Call :=
  omap (λ c, match c with
             | api_init_services _ _ _ | api_start_discovery | api_ws_connect _ => Some c
             | _ => None
             end) cs.

(** The lines written to the console. *)
Definition console_lines (cs : list Call) : list Call :=
  omap (λ c, match c with
             | console_error _ | console_log _ => Some c
             | _ => None
             end) cs.

(** What the status service was asked to publish. *)
Definition status_calls (cs : list Call) : list (string * bool) :=
  omap (λ c, match c with
             | status_set_status message is_error => Some (message, is_error)
             | _ => None
             end) cs.

(** The [set_status] calls of a history, with the default of [is_error]
    filled in. *)
Definition status_requests (ops : list Op) : list (string * bool) :=
  omap (λ o, match o with
             | op_set_status message is_error => Some (message, default false is_error)
             | _ => None
             end) ops.

(** The line that [set_status] writes for a request. *)
Definition console_line (request : string * bool) : Call :=
  if request.2
  then console_error ("Extension Error: " +:+ request.1)
  else console_log ("Extension Status: " +:+ request.1).

(** The pairing and unpairing events among the events emitted. *)
Definition lifecycle_events (es : list Event) : list Event :=
  omap (λ e, match e with
             | ev_core_paired _ | ev_core_unpaired _ => Some e
             | _ => None
             end) es.

(** The notifications of a history, as the events they ask for. *)
Definition notifications (ops : list Op) : list Event :=
  omap (λ o, match o with
             | op_core_paired core => Some (ev_core_paired core)
             | op_core_unpaired core => Some (ev_core_unpaired core)
             | _ => None
             end) ops.

(** How many pairings are notified in a history, and how many
    subscriptions one pairing makes. *)
Definition pairings (ops : list Op) : nat :=
  length (omap (λ o, if is_pairing o then Some o else None) ops).

Definition subscriptions_per_pairing (o : RoonExtensionOptions) : nat :=
  (if truthy (subscribe_outputs o) then 1 else 0) +
  (if truthy (subscribe_zones o) then 1 else 0).

(** The two lists that [initializeServices] builds from the options, the
    required services and the optional ones. *)
Definition requested_services (o : RoonExtensionOptions)
  : list RequestedRoonServices * list RequestedRoonServices :=
  requireService (RoonApiTransport o) RoonKit_RoonApiTransport
    (requireService (RoonApiImage o) RoonKit_RoonApiImage
       (requireService (RoonApiBrowse o) RoonKit_RoonApiBrowse ([], []))).

(** The call that ends a start. *)
Definition is_api_start (c : Call) : Prop :=
  c = api_start_discovery ∨ ∃ options, c = api_ws_connect options.

(** The API client has been used as one start uses it, or not at all. *)
Definition api_used_once (s : State) : Prop :=
  match _core s with
  | None => api_calls (calls s) = []
  | Some _ =>
      ∃ required_services optional_services provided_services last,
        api_calls (calls s) =
          [api_init_services required_services optional_services provided_services; last] ∧
        is_api_start last
  end.

(** Every slot but the current one has been disposed of, and the current
    one has not. *)
Definition one_live_slot (s : State) : Prop :=
  (∀ t, _core s = Some t →
        ∃ obj, transients s !! t = Some obj ∧ TransientObject.discarded obj = false) ∧
  (∀ t obj, transients s !! t = Some obj → TransientObject.discarded obj = false →
            _core s = Some t).

(** The unpairings of a history, as the events they ask for. *)
Definition unpairing_events (ops : list Op) : list Event :=
  omap (λ o, match o with
             | op_core_unpaired core => Some (ev_core_unpaired core)
             | _ => None
             end) ops.

End Model.

(** ** A concrete environment, for running the model *)

Definition sample_interfaces : Interfaces :=
  {| RoonCore := nat;
     RoonExtensionDescription := string;
     RoonSubscriptionResponse := string;
     RoonApiTransportOutputs := nat;
     RoonApiTransportZones := nat;
     WSConnectOptions := string;
     HostService := string |}.

Definition sample_options : @RoonExtensionOptions sample_interfaces :=
  {| description := "sample extension" : @RoonExtensionDescription sample_interfaces;
     log_level := None;
     RoonApiBrowse := None;
     RoonApiImage := Some optional;
     RoonApiTransport := None;
     subscribe_outputs := None;
     subscribe_zones := None |}.

Definition subscribing_options : @RoonExtensionOptions sample_interfaces :=
  {| description := "sample extension" : @RoonExtensionDescription sample_interfaces;
     log_level := Some log_none;
     RoonApiBrowse := Some required;
     RoonApiImage := None;
     RoonApiTransport := Some optional;
     subscribe_outputs := Some true;
     subscribe_zones := Some true |}.

(** The host asks for zone updates after construction. *)
Definition late_subscription : @PartialOptions sample_interfaces :=
  {| p_description := None;
     p_log_level := None;
     p_RoonApiBrowse := None;
     p_RoonApiImage := None;
     p_RoonApiTransport := None;
     p_subscribe_outputs := None;
     p_subscribe_zones := Some (Some true) |}.

(** A new instance and an array that the host has made, at reference 0. *)
Definition sample_new : @State sample_interfaces :=
  exec [op_new_array [host_service ("volume" : @HostService sample_interfaces)]]
    (constructor sample_options).

(** The same, after the host has passed its array to [start_discovery]. *)
Definition sample_started : @State sample_interfaces :=
  exec [op_start_discovery (Some 0)] sample_new.

(** A component makes sure, before the start, that the transport service
    is there. *)
Definition require_transport : @PartialOptions sample_interfaces :=
  {| p_description := None;
     p_log_level := None;
     p_RoonApiBrowse := None;
     p_RoonApiImage := None;
     p_RoonApiTransport := Some (Some required);
     p_subscribe_outputs := None;
     p_subscribe_zones := None |}.

(** An instance made with both subscription flags set, started. *)
Definition sample_subscribing : @State sample_interfaces :=
  exec [op_start_discovery None] (constructor subscribing_options).

(** * Properties *)

Section Properties.
Context `{Interfaces}.

Implicit Types (s : State) (t : ref) (o : Op) (ops : list Op).

Ltac unfold_M :=
  unfold this_core_nonnull, this_options, when, call, modify, get, throw,
    mbind, M_bind, mret, M_ret in *.

Ltac unfold_methods :=
  unfold discard, start_discovery, ws_connect, set_status, update_options, get_core,
    core_paired, core_unpaired, deliver_outputs, deliver_zones,
    instantiateCore, initializeServices, ensureStarted,
    provided_services_or_default, new_array, array_push, alloc_transient,
    transient_resolve, transient_dispose, transient_getObject,
    OutputsCallback_apply, ZonesCallback_apply in *.

(** One case for each step, with the method bodies unfolded. *)
Ltac case_op o :=
  unfold after;
  destruct o as [[?|]|? [?|]|? ?|?| |?|?|? ? ?|? ? ?|?];
  simpl; try discriminate;
  unfold_methods; unfold_M; simpl.

(** The tests that the method bodies make on the state. *)
Ltac case_state :=
  repeat match goal with
  | Hc : _core ?s = _ |- context [_core ?s] => rewrite Hc; simpl
  | |- context [bool_decide ?P] => destruct (bool_decide P); simpl
  | |- context [default false ?e] => destruct (default false e); simpl
  | |- context [truthy ?b] => destruct (truthy b); simpl
  | |- context [subscriptions ?s !! ?i] =>
      destruct (subscriptions s !! i) as [[? []|? []]|]; simpl
  | |- context [_core ?s] => is_var s; destruct (_core s) eqn:?; simpl
  end.

(** ** The one-shot guard *)

Lemma instantiateCore_fresh s :
  _core s = None →
  instantiateCore s =
    (Ok tt, set_core (Some (fresh (dom (transients s))))
              (set_calls (calls s ++ [new_TransientObject (fresh (dom (transients s)))])
                 (set_transients
                    (<[fresh (dom (transients s)) := TransientObject.new]> (transients s)) s))).
Proof. intros Hc. unfold_methods. unfold_M. rewrite Hc. reflexivity. Qed.

Lemma instantiateCore_again s t :
  _core s = Some t → instantiateCore s = (Throw already_started, s).
Proof. intros Hc. unfold_methods. unfold_M. rewrite Hc. reflexivity. Qed.

Lemma run_start_first o s :
  is_start o = true → _core s = None → (run o s).1 = Ok tt.
Proof. intros Ho Hc. case_op o; case_state; reflexivity. Qed.

Lemma run_start_again o s :
  is_start o = true → is_Some (_core s) → (run o s).1 = Throw already_started.
Proof. intros Ho [t Hc]. case_op o; case_state; reflexivity. Qed.

(** Once [_core] is set it stays set, whatever happens next. *)
Lemma after_started o s : is_Some (_core s) → is_Some (_core (after o s)).
Proof. intros [t Hc]. case_op o; case_state; eauto. Qed.

Lemma exec_started ops s : is_Some (_core s) → is_Some (_core (exec ops s)).
Proof.
  revert s. induction ops as [|o ops IH]; intros s Hs; simpl; [done|].
  apply IH, after_started, Hs.
Qed.

(** Only [start_discovery] and [ws_connect] set [_core] on an instance
    that has none. *)
Lemma after_not_started o s :
  is_start o = false → _core s = None → _core (after o s) = None.
Proof. intros Ho Hc. case_op o; case_state; done. Qed.

Lemma exec_not_started ops s :
  no_start ops = true → _core s = None → _core (exec ops s) = None.
Proof.
  revert s. induction ops as [|o ops IH]; intros s Hops Hs; simpl; [done|].
  simpl in Hops. apply andb_true_iff in Hops as [Ho Hops].
  apply IH; [done|]. apply after_not_started; [|done].
  by destruct (is_start o).
Qed.

Lemma after_start_started o s : is_start o = true → is_Some (_core (after o s)).
Proof. intros Ho. case_op o; case_state; eauto. Qed.

(** ** The pairing slot along a history *)

Lemma settled_empty s t : holds s t TransientObject.empty →
  settled s (promise_of t) = TransientObject.Pending.
Proof.
  intros (obj & Hl & Hst). simpl. rewrite Hl.
  unfold TransientObject.getObject. by rewrite Hst.
Qed.

Lemma settled_filled s t core : holds s t (TransientObject.filled core) →
  settled s (promise_of t) = TransientObject.Resolved core.
Proof.
  intros (obj & Hl & Hst). simpl. rewrite Hl.
  unfold TransientObject.getObject. by rewrite Hst.
Qed.

Lemma get_core_started s t : _core s = Some t → get_core s = (Ok (promise_of t), s).
Proof. intros Hc. unfold_methods. unfold_M. by rewrite Hc. Qed.

Lemma get_core_not_started s : _core s = None → get_core s = (Throw not_started, s).
Proof. intros Hc. unfold_methods. unfold_M. by rewrite Hc. Qed.

(** A successful start allocates the slot, empty. *)
Lemma after_start_fresh o s :
  is_start o = true → _core s = None →
  _core (after o s) = Some (fresh (dom (transients s))) ∧
  transients (after o s) =
    <[fresh (dom (transients s)) := TransientObject.new]> (transients s).
Proof. intros Ho Hc. case_op o; case_state; done. Qed.

(** Between notifications the slot is left alone. *)
Lemma after_quiet o s t :
  _core s = Some t → is_pairing o = false → is_unpairing o = false →
  _core (after o s) = Some t ∧ transients (after o s) = transients s.
Proof. intros Hc Hp Hu. case_op o; case_state; done. Qed.

Lemma after_paired s t core :
  _core s = Some t →
  _core (after (op_core_paired core) s) = Some t ∧
  transients (after (op_core_paired core) s) =
    alter (TransientObject.resolve core) t (transients s).
Proof.
  intros Hc. unfold after. simpl. unfold_methods; unfold_M; simpl; rewrite Hc; simpl.
  destruct (truthy (subscribe_outputs _)), (truthy (subscribe_zones _)); simpl; done.
Qed.

Lemma after_unpaired s t core :
  _core s = Some t →
  _core (after (op_core_unpaired core) s) = Some (fresh (dom (transients s))) ∧
  transients (after (op_core_unpaired core) s) =
    <[fresh (dom (transients s)) := TransientObject.new]>
      (alter TransientObject.dispose t (transients s)).
Proof.
  intros Hc. unfold after. simpl. unfold_methods; unfold_M; simpl; rewrite Hc; simpl.
  by rewrite dom_alter_L.
Qed.

(** An empty slot stays empty until a pairing is notified. *)
Lemma after_keeps_empty o s t1 :
  is_Some (_core s) → is_pairing o = false →
  holds s t1 TransientObject.empty → holds (after o s) t1 TransientObject.empty.
Proof.
  intros [t Hc] Hp (obj & Hl & Hst).
  destruct (is_unpairing o) eqn:Hu.
  - destruct o as [| | | | | |core| | |]; try discriminate.
    destruct (after_unpaired s t core Hc) as [_ Htr].
    unfold holds. rewrite Htr.
    destruct (decide (t1 = fresh (dom (transients s)))) as [->|Hne].
    + exists TransientObject.new. by rewrite lookup_insert_eq.
    + rewrite lookup_insert_ne; [|done].
      destruct (decide (t1 = t)) as [->|Hne'].
      * exists (TransientObject.dispose obj). rewrite lookup_alter_eq, Hl. done.
      * exists obj. rewrite lookup_alter_ne; done.
  - destruct (after_quiet o s t Hc Hp Hu) as [_ Htr].
    exists obj. by rewrite Htr.
Qed.

Lemma exec_keeps_empty ops s t1 :
  is_Some (_core s) → no_pairing ops = true →
  holds s t1 TransientObject.empty → holds (exec ops s) t1 TransientObject.empty.
Proof.
  revert s. induction ops as [|o ops IH]; intros s Hs Hops Ht; simpl; [done|].
  simpl in Hops. apply andb_true_iff in Hops as [Ho Hops].
  apply negb_true_iff in Ho.
  apply IH; [by apply after_started|done|by apply after_keeps_empty].
Qed.

Lemma after_waiting o s : is_pairing o = false → waiting s → waiting (after o s).
Proof.
  intros Hp (t & Hc & Ht).
  destruct (is_unpairing o) eqn:Hu.
  - destruct o as [| | | | | |core| | |]; try discriminate.
    destruct (after_unpaired s t core Hc) as [Hc' Htr].
    exists (fresh (dom (transients s))). split; [done|].
    exists TransientObject.new. by rewrite Htr, lookup_insert_eq.
  - exists t. split; [by apply after_quiet|].
    apply after_keeps_empty; [by rewrite Hc|done..].
Qed.

Lemma exec_waiting ops s : no_pairing ops = true → waiting s → waiting (exec ops s).
Proof.
  revert s. induction ops as [|o ops IH]; intros s Hops Hs; simpl; [done|].
  simpl in Hops. apply andb_true_iff in Hops as [Ho Hops].
  apply negb_true_iff in Ho. apply IH; [done|by apply after_waiting].
Qed.

Lemma after_paired_with o s t core :
  is_unpairing o = false → paired_with s t core → paired_with (after o s) t core.
Proof.
  intros Hu (Hc & obj & Hl & Hst).
  destruct (is_pairing o) eqn:Hp.
  - destruct o as [| | | | |core'| | | |]; try discriminate.
    destruct (after_paired s t core' Hc) as [Hc' Htr]. split; [done|].
    exists obj. rewrite Htr, lookup_alter_eq, Hl. simpl.
    unfold TransientObject.resolve. by rewrite Hst.
  - destruct (after_quiet o s t Hc Hp Hu) as [Hc' Htr]. split; [done|].
    exists obj. by rewrite Htr.
Qed.

Lemma exec_paired_with ops s t core :
  no_unpairing ops = true → paired_with s t core → paired_with (exec ops s) t core.
Proof.
  revert s. induction ops as [|o ops IH]; intros s Hops Hs; simpl; [done|].
  simpl in Hops. apply andb_true_iff in Hops as [Ho Hops].
  apply negb_true_iff in Ho. apply IH; [done|by apply after_paired_with].
Qed.

Lemma exec_quiet ops s t :
  _core s = Some t → no_pairing ops = true → no_unpairing ops = true →
  _core (exec ops s) = Some t ∧ transients (exec ops s) = transients s.
Proof.
  revert s. induction ops as [|o ops IH]; intros s Hc Hp Hu; simpl; [done|].
  simpl in Hp, Hu.
  apply andb_true_iff in Hp as [Hp Hps]. apply negb_true_iff in Hp.
  apply andb_true_iff in Hu as [Hu Hus]. apply negb_true_iff in Hu.
  destruct (after_quiet o s t Hc Hp Hu) as [Hc' Htr].
  destruct (IH (after o s) Hc' Hps Hus) as [? ?]. split; congruence.
Qed.

Lemma exec_app ops1 ops2 s : exec (ops1 ++ ops2) s = exec ops2 (exec ops1 s).
Proof. apply foldl_app. Qed.

(** The pairing that ends a wait fills the slot that was current, and
    the core stays there until an unpairing is notified. *)
Lemma wait_ends_with_pairing s t before core later :
  _core s = Some t → holds s t TransientObject.empty →
  no_pairing before = true → no_unpairing before = true →
  no_unpairing later = true →
  paired_with (exec (before ++ op_core_paired core :: later) s) t core.
Proof.
  intros Hc (obj & Hl & Hst) Hp Hu Hlater.
  rewrite exec_app. simpl.
  destruct (exec_quiet before s t Hc Hp Hu) as [Hc2 Htr2].
  destruct (after_paired (exec before s) t core Hc2) as [Hc3 Htr3].
  apply exec_paired_with; [done|]. split; [done|].
  exists (TransientObject.resolve core obj). split.
  - by rewrite Htr3, Htr2, lookup_alter_eq, Hl.
  - unfold TransientObject.resolve. by rewrite Hst.
Qed.

(** ** Waiting for a core *)

(** C1, amended.  On an instance that [start_discovery] or [ws_connect]
    has started, a [get_core] call made before any pairing is notified
    returns a promise that is pending: the caller waits.  The callers of
    one stretch without notifications share the promise.  Once
    [core_paired] has fired with [C1], with no unpairing notified between
    the call and that pairing, the promise is resolved with [C1], and for
    as long as no unpairing is notified the calls of [get_core] issued
    afterwards return that same promise: the callers that were waiting and
    those that call later all get [C1]. *)
Theorem C1_get_core_waits_then_resolves s start before :
  is_start start = true →
  (run start s).1 = Ok tt →
  no_pairing before = true →
  ∃ p,
    get_core (exec before (after start s)) = (Ok p, exec before (after start s)) ∧
    settled (exec before (after start s)) p = TransientObject.Pending ∧
    (∀ more,
       no_pairing more = true → no_unpairing more = true →
       get_core (exec (before ++ more) (after start s)) =
         (Ok p, exec (before ++ more) (after start s)) ∧
       settled (exec (before ++ more) (after start s)) p = TransientObject.Pending) ∧
    (∀ more C1 later,
       no_pairing more = true → no_unpairing more = true →
       no_unpairing later = true →
       get_core (exec (before ++ more ++ op_core_paired C1 :: later) (after start s)) =
         (Ok p, exec (before ++ more ++ op_core_paired C1 :: later) (after start s)) ∧
       settled (exec (before ++ more ++ op_core_paired C1 :: later) (after start s)) p =
         TransientObject.Resolved C1).
Proof.
  intros Hstart Hok Hbefore.
  assert (_core s = None) as Hnone.
  { destruct (_core s) as [t|] eqn:Hc; [|done].
    rewrite run_start_again in Hok; [discriminate|done|by rewrite Hc]. }
  destruct (after_start_fresh start s Hstart Hnone) as [Hc1 Htr1].
  assert (waiting (after start s)) as Hw.
  { exists (fresh (dom (transients s))). split; [done|].
    exists TransientObject.new. by rewrite Htr1, lookup_insert_eq. }
  apply (exec_waiting before) in Hw as (t & Hc & Hh); [|done].
  exists (promise_of t).
  split; [by apply get_core_started|]. split; [by apply settled_empty|]. split.
  - intros more Hp Hu. rewrite exec_app.
    destruct (exec_quiet more (exec before (after start s)) t Hc Hp Hu) as [Hc2 Htr2].
    split; [by apply get_core_started|].
    apply settled_empty. destruct Hh as (obj & Hobj & Hst).
    exists obj. by rewrite Htr2.
  - intros more C1 later Hp Hu Hl. rewrite exec_app.
    destruct (wait_ends_with_pairing (exec before (after start s)) t more C1 later)
      as [Hc4 Hh4]; try done.
    split; [by apply get_core_started|by apply settled_filled].
Qed.

(** C2.  On a started instance, [core_unpaired] first emits the
    [core_unpaired] event with the outgoing core, then disposes of the
    slot and puts a new, empty one in its place.  From then on and until a
    pairing is notified, [get_core] returns a promise that is pending and
    stays pending: no caller gets the core of the old slot.  What such a
    promise is resolved with, if its slot is still the current one when
    the next pairing comes, is the core of that pairing. *)
Theorem C2_unpair_replaces_slot s t oldCore :
  _core s = Some t →
  ∃ s' t',
    core_unpaired oldCore s = (Ok tt, s') ∧
    calls s' = calls s ++ [emit (ev_core_unpaired oldCore);
                           TransientObject_dispose t;
                           new_TransientObject t'] ∧
    (t' ∉ dom (transients s)) ∧
    _core s' = Some t' ∧
    transients s' !! t' = Some TransientObject.new ∧
    (∀ obj, transients s !! t = Some obj →
            transients s' !! t = Some (TransientObject.dispose obj)) ∧
    (∀ ops, no_pairing ops = true →
       ∃ p, get_core (exec ops s') = (Ok p, exec ops s') ∧
            (∀ more, no_pairing more = true →
               settled (exec (ops ++ more) s') p = TransientObject.Pending) ∧
            (∀ more newCore later,
               no_pairing more = true → no_unpairing more = true →
               no_unpairing later = true →
               settled (exec (ops ++ more ++ op_core_paired newCore :: later) s') p =
                 TransientObject.Resolved newCore)).
Proof.
  intros Hc.
  destruct (after_unpaired s t oldCore Hc) as [Hc' Htr'].
  set (t' := fresh (dom (transients s))) in *.
  exists (after (op_core_unpaired oldCore) s), t'.
  assert (t' ∉ dom (transients s)) as Hfresh by apply is_fresh.
  split; [|split; [|split; [done|split; [done|split; [|split]]]]].
  - unfold after. simpl. unfold_methods; unfold_M; simpl; rewrite Hc; simpl. done.
  - unfold after. simpl. unfold_methods; unfold_M; simpl; rewrite Hc; simpl.
    rewrite dom_alter_L, <- !app_assoc. done.
  - by rewrite Htr', lookup_insert_eq.
  - intros obj Hobj. rewrite Htr'.
    rewrite lookup_insert_ne.
    + by rewrite lookup_alter_eq, Hobj.
    + intros ->. apply Hfresh, elem_of_dom. by rewrite Hobj.
  - intros ops Hops.
    assert (waiting (after (op_core_unpaired oldCore) s)) as Hw.
    { exists t'. split; [done|]. exists TransientObject.new.
      by rewrite Htr', lookup_insert_eq. }
    apply (exec_waiting ops) in Hw as (t1 & Hc1 & Hh1); [|done].
    exists (promise_of t1). split; [by apply get_core_started|]. split.
    + intros more Hmore. rewrite exec_app. apply settled_empty.
      apply exec_keeps_empty; [by rewrite Hc1|done..].
    + intros more newCore later Hp Hu Hlater. rewrite exec_app.
      apply settled_filled.
      by apply (wait_ends_with_pairing (exec ops (after (op_core_unpaired oldCore) s))).
Qed.

(** ** Options *)

(** C3.  The constructor copies the options it is given, except that the
    transport requirement becomes [required] when [subscribe_outputs] or
    [subscribe_zones] is truthy, whatever was supplied for it; with
    neither flag set it is left as supplied. *)
Theorem C3_constructor_requires_transport (options : RoonExtensionOptions) :
  RoonApiTransport (_options (constructor options)) =
    (if truthy (subscribe_outputs options) || truthy (subscribe_zones options)
     then Some required
     else RoonApiTransport options) ∧
  description (_options (constructor options)) = description options ∧
  log_level (_options (constructor options)) = log_level options ∧
  RoonApiBrowse (_options (constructor options)) = RoonApiBrowse options ∧
  RoonApiImage (_options (constructor options)) = RoonApiImage options ∧
  subscribe_outputs (_options (constructor options)) = subscribe_outputs options ∧
  subscribe_zones (_options (constructor options)) = subscribe_zones options.
Proof.
  simpl. unfold constructor_options.
  destruct (truthy (subscribe_outputs options) || truthy (subscribe_zones options));
    simpl; repeat split; reflexivity.
Qed.

(** ** Sequencing errors *)

(** C5.  On a new instance the first call of [start_discovery] or
    [ws_connect] returns, and any call of either of them made later, on
    the same instance, throws the "already started" error. *)
Theorem C5_start_is_one_shot (options : RoonExtensionOptions) before first between second :
  no_start before = true →
  is_start first = true →
  is_start second = true →
  (run first (exec before (constructor options))).1 = Ok tt ∧
  (run second (exec between (after first (exec before (constructor options))))).1 =
    Throw already_started.
Proof.
  intros Hbefore Hfirst Hsecond. split.
  - apply run_start_first; [done|]. by apply exec_not_started.
  - apply run_start_again; [done|]. by apply exec_started, after_start_started.
Qed.

(** C6.  Before the instance is started [update_options] merges the
    options it is given into the configuration: a property that is
    supplied overwrites, the others are preserved.  Once [start_discovery]
    or [ws_connect] has been called it throws, and nothing changes. *)
Theorem C6_update_options_until_started
    (options : RoonExtensionOptions) before start later (p : PartialOptions) :
  no_start before = true →
  is_start start = true →
  let s := exec before (constructor options) in
  let s' := exec later (after start s) in
  update_options p s' = (Throw cannot_update, s') ∧
  ∃ opts,
    update_options p s = (Ok tt, set_options opts s) ∧
    merged (description (_options s)) (p_description p) (description opts) ∧
    merged (log_level (_options s)) (p_log_level p) (log_level opts) ∧
    merged (RoonApiBrowse (_options s)) (p_RoonApiBrowse p) (RoonApiBrowse opts) ∧
    merged (RoonApiImage (_options s)) (p_RoonApiImage p) (RoonApiImage opts) ∧
    merged (RoonApiTransport (_options s)) (p_RoonApiTransport p) (RoonApiTransport opts) ∧
    merged (subscribe_outputs (_options s)) (p_subscribe_outputs p) (subscribe_outputs opts) ∧
    merged (subscribe_zones (_options s)) (p_subscribe_zones p) (subscribe_zones opts).
Proof.
  intros Hbefore Hstart s s'. split.
  - assert (is_Some (_core s')) as [t Ht] by apply exec_started, after_start_started, Hstart.
    unfold_methods. unfold_M. by rewrite Ht.
  - assert (_core s = None) as Hs by by apply exec_not_started.
    exists (Object_assign (_options s) p). split.
    + unfold_methods. unfold_M. by rewrite Hs.
    + unfold merged, Object_assign. simpl.
      destruct p as [[] [] [] [] [] [] []]; simpl; repeat split; reflexivity.
Qed.

(** C7.  Before [start_discovery] or [ws_connect] has been called,
    [get_core] throws the "not started" error: it returns no promise. *)
Theorem C7_get_core_before_start (options : RoonExtensionOptions) before :
  no_start before = true →
  get_core (exec before (constructor options)) =
    (Throw not_started, exec before (constructor options)).
Proof.
  intros Hbefore. apply get_core_not_started. by apply exec_not_started.
Qed.

(** ** Status *)

(** C8.  [set_status] returns, having passed the message and the error
    flag on to the status service; unless [log_level] is ['none'] it then
    writes one line to the console, with [console.error] for an error and
    with [console.log] otherwise.  It makes no other call and changes
    nothing else. *)
Theorem C8_set_status_forwards_and_logs s message is_error :
  set_status message is_error s =
    (Ok tt,
     set_calls
       (calls s ++
        status_set_status message (default false is_error) ::
        (if bool_decide (log_level (_options s) = Some log_none)
         then []
         else [if default false is_error
               then console_error ("Extension Error: " +:+ message)
               else console_log ("Extension Status: " +:+ message)])) s).
Proof.
  unfold_methods. unfold_M. simpl.
  destruct (decide (log_level (_options s) = Some log_none)) as [Heq|Hne].
  - rewrite (bool_decide_eq_false_2 (log_level (_options s) ≠ Some log_none)) by tauto.
    rewrite (bool_decide_eq_true_2 _ Heq). reflexivity.
  - rewrite (bool_decide_eq_true_2 _ Hne).
    rewrite (bool_decide_eq_false_2 _ Hne).
    destruct (default false is_error); simpl; unfold set_calls; simpl;
      by rewrite <- app_assoc.
Qed.

(** ** Subscriptions *)

(** Subscriptions are only ever added, at the end of the list. *)
Lemma after_subscriptions o s :
  ∃ more, subscriptions (after o s) = subscriptions s ++ more.
Proof.
  case_op o; case_state; rewrite <- ?app_assoc; eauto;
    exists []; by rewrite app_nil_r.
Qed.

Lemma exec_subscriptions ops s :
  ∃ more, subscriptions (exec ops s) = subscriptions s ++ more.
Proof.
  revert s. induction ops as [|o ops IH]; intros s; simpl.
  - exists []. by rewrite app_nil_r.
  - destruct (IH (after o s)) as [more2 ->].
    destruct (after_subscriptions o s) as [more1 ->].
    exists (more1 ++ more2). by rewrite app_assoc.
Qed.

Lemma exec_subscription_stays ops s i sub :
  subscriptions s !! i = Some sub → subscriptions (exec ops s) !! i = Some sub.
Proof.
  intros Hi. destruct (exec_subscriptions ops s) as [more ->].
  by apply lookup_app_l_Some.
Qed.

Lemma deliver_zones_emits s i svc core r b :
  subscriptions s !! i = Some (zones_subscription svc (emit_subscribe_zones core)) →
  deliver_zones i r b s =
    (Ok tt, set_calls (calls s ++ [emit (ev_subscribe_zones core r b)]) s).
Proof. intros Hi. unfold_methods. unfold_M. by rewrite Hi. Qed.

Lemma deliver_outputs_emits s i svc core r b :
  subscriptions s !! i = Some (outputs_subscription svc (emit_subscribe_outputs core)) →
  deliver_outputs i r b s =
    (Ok tt, set_calls (calls s ++ [emit (ev_subscribe_outputs core r b)]) s).
Proof. intros Hi. unfold_methods. unfold_M. by rewrite Hi. Qed.

Lemma deliver_zones_in_order s i svc core
    (updates : list (RoonSubscriptionResponse * RoonApiTransportZones)) :
  subscriptions s !! i = Some (zones_subscription svc (emit_subscribe_zones core)) →
  calls (exec (map (λ u, op_deliver_zones i u.1 u.2) updates) s) =
    calls s ++ map (λ u, emit (ev_subscribe_zones core u.1 u.2)) updates.
Proof.
  revert s. induction updates as [|[r b] updates IH]; intros s Hi; simpl.
  - by rewrite app_nil_r.
  - unfold after at 1. simpl.
    rewrite (deliver_zones_emits s i svc core r b Hi). simpl.
    rewrite IH by done. simpl. by rewrite <- app_assoc.
Qed.

Lemma deliver_outputs_in_order s i svc core
    (updates : list (RoonSubscriptionResponse * RoonApiTransportOutputs)) :
  subscriptions s !! i = Some (outputs_subscription svc (emit_subscribe_outputs core)) →
  calls (exec (map (λ u, op_deliver_outputs i u.1 u.2) updates) s) =
    calls s ++ map (λ u, emit (ev_subscribe_outputs core u.1 u.2)) updates.
Proof.
  revert s. induction updates as [|[r b] updates IH]; intros s Hi; simpl.
  - by rewrite app_nil_r.
  - unfold after at 1. simpl.
    rewrite (deliver_outputs_emits s i svc core r b Hi). simpl.
    rewrite IH by done. simpl. by rewrite <- app_assoc.
Qed.

Lemma emitted_app cs1 cs2 : emitted (cs1 ++ cs2) = emitted cs1 ++ emitted cs2.
Proof. apply omap_app. Qed.

Lemma emitted_emit {A} (f : A → Event) (l : list A) :
  emitted (map (λ x, emit (f x)) l) = map f l.
Proof. induction l as [|x l IH]; [done|]. cbn. f_equal. exact IH. Qed.

(** What a pairing adds to the subscriptions. *)
Lemma core_paired_subscriptions s C s1 :
  core_paired C s = (Ok tt, s1) →
  subscriptions s1 =
    subscriptions s ++
    (if truthy (subscribe_outputs (_options s))
     then [outputs_subscription C (emit_subscribe_outputs C)] else []) ++
    (if truthy (subscribe_zones (_options s))
     then [zones_subscription C (emit_subscribe_zones C)] else []).
Proof.
  unfold_methods. unfold_M. destruct (_core s); simpl; [|discriminate].
  destruct (truthy (subscribe_outputs _)), (truthy (subscribe_zones _)); simpl;
    intros [= <-]; simpl; rewrite <- ?app_assoc, ?app_nil_r; reflexivity.
Qed.

(** C9.  A pairing with the core [C] makes one subscription for each feed
    whose flag is set, and none for the others.  When [subscribe_zones] is
    true, every zone update that the transport service delivers to that
    subscription, at any later time, makes the facade emit one
    [subscribe_zones] event and nothing else; the event carries [C], the
    response and the body; a run of updates gives the events in the order
    of delivery.  The same holds for [subscribe_outputs]. *)
Theorem C9_updates_become_events s C s1 :
  core_paired C s = (Ok tt, s1) →
  subscriptions s1 =
    subscriptions s ++
    (if truthy (subscribe_outputs (_options s))
     then [outputs_subscription C (emit_subscribe_outputs C)] else []) ++
    (if truthy (subscribe_zones (_options s))
     then [zones_subscription C (emit_subscribe_zones C)] else []) ∧
  (subscribe_zones (_options s) = Some true →
   ∃ i,
     length (subscriptions s) ≤ i ∧
     subscriptions s1 !! i = Some (zones_subscription C (emit_subscribe_zones C)) ∧
     (∀ ops r b,
        deliver_zones i r b (exec ops s1) =
          (Ok tt, set_calls (calls (exec ops s1) ++ [emit (ev_subscribe_zones C r b)])
                    (exec ops s1))) ∧
     (∀ updates : list (RoonSubscriptionResponse * RoonApiTransportZones),
        emitted (calls (exec (map (λ u, op_deliver_zones i u.1 u.2) updates) s1)) =
          emitted (calls s1) ++ map (λ u, ev_subscribe_zones C u.1 u.2) updates)) ∧
  (subscribe_outputs (_options s) = Some true →
   ∃ i,
     length (subscriptions s) ≤ i ∧
     subscriptions s1 !! i = Some (outputs_subscription C (emit_subscribe_outputs C)) ∧
     (∀ ops r b,
        deliver_outputs i r b (exec ops s1) =
          (Ok tt, set_calls (calls (exec ops s1) ++ [emit (ev_subscribe_outputs C r b)])
                    (exec ops s1))) ∧
     (∀ updates : list (RoonSubscriptionResponse * RoonApiTransportOutputs),
        emitted (calls (exec (map (λ u, op_deliver_outputs i u.1 u.2) updates) s1)) =
          emitted (calls s1) ++ map (λ u, ev_subscribe_outputs C u.1 u.2) updates)).
Proof.
  intros Hpaired.
  pose proof (core_paired_subscriptions s C s1 Hpaired) as Hsubs.
  split; [done|]. split.
  - intros Hz. rewrite Hz in Hsubs. simpl in Hsubs.
    set (outs := if truthy (subscribe_outputs (_options s))
                 then [outputs_subscription C (emit_subscribe_outputs C)] else []) in *.
    exists (length (subscriptions s ++ outs)).
    assert (subscriptions s1 !! length (subscriptions s ++ outs) =
            Some (zones_subscription C (emit_subscribe_zones C))) as Hi.
    { rewrite Hsubs, app_assoc. by rewrite list_lookup_middle. }
    split; [rewrite length_app; lia|]. split; [done|]. split.
    + intros ops r b. eapply deliver_zones_emits, exec_subscription_stays, Hi.
    + intros updates. rewrite (deliver_zones_in_order _ _ _ _ _ Hi).
      by rewrite emitted_app, emitted_emit.
  - intros Ho. rewrite Ho in Hsubs. simpl in Hsubs.
    exists (length (subscriptions s)).
    assert (subscriptions s1 !! length (subscriptions s) =
            Some (outputs_subscription C (emit_subscribe_outputs C))) as Hi.
    { rewrite Hsubs. by rewrite list_lookup_middle. }
    split; [done|]. split; [done|]. split.
    + intros ops r b. eapply deliver_outputs_emits, exec_subscription_stays, Hi.
    + intros updates. rewrite (deliver_outputs_in_order _ _ _ _ _ Hi).
      by rewrite emitted_app, emitted_emit.
Qed.

(** ** Provided services *)

(** [update_options] changes the transport requirement only when the
    caller supplies one. *)
Lemma update_options_leaves_transport s (p : PartialOptions) :
  p_RoonApiTransport p = None →
  RoonApiTransport (_options (after (op_update_options p) s)) =
    RoonApiTransport (_options s).
Proof.
  intros Hp. unfold after. simpl. unfold_methods. unfold_M.
  destruct (_core s); simpl; [done|]. by rewrite Hp.
Qed.

Lemma initializeServices_pushes s a xs :
  arrays s !! a = Some xs →
  ∃ required_services optional_services,
    initializeServices a s =
      (Ok tt,
       set_calls (calls s ++ [api_init_services required_services optional_services a])
         (set_arrays (<[a := xs ++ [this_status]]> (arrays s)) s)).
Proof.
  intros Ha. unfold_methods. unfold_M. simpl.
  eexists _, _. do 3 f_equal.
  apply map_eq. intros a'. destruct (decide (a' = a)) as [->|Hne].
  - by rewrite lookup_alter_eq, lookup_insert_eq, Ha.
  - by rewrite lookup_alter_ne, lookup_insert_ne.
Qed.

(** C10, amended.  On an instance that has not been started,
    [start_discovery] and [ws_connect] append one element to the array
    they are given, the status service of the instance; the elements that
    were there stay, in their order, and no other array changes.  The
    array handed to [init_services] is that same array. *)
Theorem C10_status_service_is_appended s a xs :
  _core s = None →
  arrays s !! a = Some xs →
  ∃ required_services optional_services,
    (∃ s',
       start_discovery (Some a) s = (Ok tt, s') ∧
       arrays s' !! a = Some (xs ++ [this_status]) ∧
       (∀ a', a' ≠ a → arrays s' !! a' = arrays s !! a') ∧
       calls s' = calls s ++
         [new_TransientObject (fresh (dom (transients s)));
          api_init_services required_services optional_services a;
          api_start_discovery]) ∧
    (∀ w, ∃ s',
       ws_connect w (Some a) s = (Ok tt, s') ∧
       arrays s' !! a = Some (xs ++ [this_status]) ∧
       (∀ a', a' ≠ a → arrays s' !! a' = arrays s !! a') ∧
       calls s' = calls s ++
         [new_TransientObject (fresh (dom (transients s)));
          api_init_services required_services optional_services a;
          api_ws_connect w]).
Proof.
  intros Hc Ha.
  pose proof (instantiateCore_fresh s Hc) as Hinst.
  set (s1 := set_core _ _) in Hinst.
  destruct (initializeServices_pushes s1 a xs Ha) as (req & opt & Hinit).
  exists req, opt. split; [|intros w]; eexists; (split; [|split; [|split]]).
  - unfold start_discovery, provided_services_or_default.
    unfold mbind, M_bind, mret, M_ret at 1. rewrite Hinst, Hinit. reflexivity.
  - simpl. by rewrite lookup_insert_eq.
  - intros a' Hne. simpl. by rewrite lookup_insert_ne.
  - simpl. by rewrite <- !app_assoc.
  - unfold ws_connect, provided_services_or_default.
    unfold mbind, M_bind, mret, M_ret at 1. rewrite Hinst, Hinit. reflexivity.
  - simpl. by rewrite lookup_insert_eq.
  - intros a' Hne. simpl. by rewrite lookup_insert_ne.
  - simpl. by rewrite <- !app_assoc.
Qed.

(** * Further properties of the class *)

(** ** What a history leaves alone *)

Lemma after_options_started o s :
  is_Some (_core s) → _options (after o s) = _options s.
Proof. intros [t Hc]. case_op o; case_state; done. Qed.

(** X4.  Once the instance is started its configuration is frozen:
    whatever the host and the collaborators do next, [_options] keeps the
    value it had. *)
Theorem options_frozen_once_started ops s :
  is_Some (_core s) → _options (exec ops s) = _options s.
Proof.
  revert s. induction ops as [|o ops IH]; intros s Hs; simpl; [done|].
  rewrite IH by by apply after_started. by apply after_options_started.
Qed.

Lemma after_arrays_started o s a xs :
  is_Some (_core s) → arrays s !! a = Some xs → arrays (after o s) !! a = Some xs.
Proof.
  intros [t Hc] Ha.
  assert (a ≠ fresh (dom (arrays s))) as Hne.
  { intros ->. apply (is_fresh (dom (arrays s))), elem_of_dom. by rewrite Ha. }
  case_op o; case_state; rewrite ?lookup_insert_ne; done.
Qed.

(** X5.  Once the instance is started it never changes an array of the
    host again: a later [start_discovery] or [ws_connect] that is given the
    array throws before the push. *)
Theorem host_arrays_untouched_once_started ops s a xs :
  is_Some (_core s) → arrays s !! a = Some xs → arrays (exec ops s) !! a = Some xs.
Proof.
  revert s. induction ops as [|o ops IH]; intros s Hs Ha; simpl; [done|].
  apply IH; [by apply after_started|by apply after_arrays_started].
Qed.

(** X3.  On a started instance [start_discovery] and [ws_connect] throw
    and do nothing: no call reaches the API client or any other
    collaborator, the slot, the configuration and the subscriptions stay,
    and no existing array is changed. *)
Theorem failed_start_changes_nothing o s :
  is_start o = true → is_Some (_core s) →
  (run o s).1 = Throw already_started ∧
  calls (after o s) = calls s ∧
  _core (after o s) = _core s ∧
  transients (after o s) = transients s ∧
  _options (after o s) = _options s ∧
  subscriptions (after o s) = subscriptions s ∧
  (∀ a xs, arrays s !! a = Some xs → arrays (after o s) !! a = Some xs).
Proof.
  intros Ho Hs. split; [by apply run_start_again|].
  split; [|split; [|split; [|split; [|split]]]];
    [| | | | |intros a xs; by apply after_arrays_started];
    destruct Hs as [t Hc]; case_op o; case_state; done.
Qed.

(** ** What the collaborators see *)

Lemma emitted_snoc cs c :
  emitted (cs ++ [c]) = emitted cs ++ match c with emit e => [e] | _ => [] end.
Proof. unfold emitted. rewrite omap_app. by destruct c. Qed.

(** X13.  The methods that the host calls never emit an event: events
    come from the callbacks of the API client and of the transport
    service only. *)
Theorem host_calls_emit_nothing o s :
  is_host_call o = true → emitted (calls (after o s)) = emitted (calls s).
Proof.
  intros Ho. case_op o; case_state; rewrite ?emitted_snoc, ?app_nil_r; done.
Qed.

Lemma status_calls_snoc cs c :
  status_calls (cs ++ [c]) =
    status_calls cs ++ match c with status_set_status m e => [(m, e)] | _ => [] end.
Proof. unfold status_calls. rewrite omap_app. by destruct c. Qed.

Lemma after_status_calls o s :
  status_calls (calls (after o s)) = status_calls (calls s) ++ status_requests [o].
Proof.
  case_op o; case_state; rewrite ?status_calls_snoc, ?app_nil_r; done.
Qed.

(** X15.  The status service is asked to publish exactly what
    [set_status] was called with, once per call and in the order of the
    calls, whether the instance is started or not and whatever
    [log_level] is; nothing else reaches it. *)
Theorem status_service_sees_every_set_status ops s :
  status_calls (calls (exec ops s)) = status_calls (calls s) ++ status_requests ops.
Proof.
  revert s. induction ops as [|o ops IH]; intros s; simpl.
  - by rewrite app_nil_r.
  - rewrite IH, after_status_calls, <- app_assoc. f_equal.
    unfold status_requests. simpl. by destruct o.
Qed.

Lemma console_lines_snoc cs c :
  console_lines (cs ++ [c]) =
    console_lines cs ++
    match c with console_error _ | console_log _ => [c] | _ => [] end.
Proof. unfold console_lines. rewrite omap_app. by destruct c. Qed.

Lemma after_console_lines o s :
  console_lines (calls (after o s)) =
    console_lines (calls s) ++
    (if bool_decide (log_level (_options s) = Some log_none)
     then []
     else console_line <$> status_requests [o]).
Proof.
  destruct (decide (log_level (_options s) = Some log_none)) as [Heq|Hne].
  - rewrite (bool_decide_eq_true_2 _ Heq), app_nil_r.
    case_op o; rewrite ?Heq; simpl; case_state;
      rewrite ?console_lines_snoc, ?app_nil_r; done.
  - rewrite (bool_decide_eq_false_2 _ Hne).
    case_op o; rewrite ?(bool_decide_eq_true_2 _ Hne); simpl; case_state;
      rewrite ?console_lines_snoc, ?app_nil_r; done.
Qed.

(** X14.  On a started instance the console gets one line for each
    [set_status] call, in the order of the calls, [console.error] for an
    error and [console.log] otherwise, and nothing else; with [log_level]
    ['none'] it gets nothing at all. *)
Theorem console_gets_one_line_per_status ops s :
  is_Some (_core s) →
  console_lines (calls (exec ops s)) =
    console_lines (calls s) ++
    (if bool_decide (log_level (_options s) = Some log_none)
     then []
     else console_line <$> status_requests ops).
Proof.
  revert s. induction ops as [|o ops IH]; intros s Hs; simpl.
  - destruct (bool_decide _); simpl; by rewrite app_nil_r.
  - rewrite IH by by apply after_started.
    rewrite after_console_lines, after_options_started by done.
    rewrite <- app_assoc. f_equal.
    destruct (bool_decide _); [done|].
    unfold status_requests. simpl. by destruct o.
Qed.

Lemma lifecycle_snoc cs c :
  lifecycle_events (emitted (cs ++ [c])) =
    lifecycle_events (emitted cs) ++
    match c with
    | emit (ev_core_paired core) => [ev_core_paired core]
    | emit (ev_core_unpaired core) => [ev_core_unpaired core]
    | _ => []
    end.
Proof.
  rewrite emitted_snoc. unfold lifecycle_events. rewrite omap_app.
  destruct c as [| | | | |[]| | | | | | | |]; done.
Qed.

Lemma after_lifecycle o s :
  is_Some (_core s) →
  lifecycle_events (emitted (calls (after o s))) =
    lifecycle_events (emitted (calls s)) ++ notifications [o].
Proof.
  intros [t Hc]. case_op o; case_state; rewrite ?lifecycle_snoc, ?app_nil_r; done.
Qed.

(** X17.  On a started instance every pairing and every unpairing that
    the API client notifies makes the facade emit one [core_paired],
    respectively [core_unpaired], event with the core of the notification,
    in the order of the notifications; nothing else emits such an
    event. *)
Theorem notifications_become_events ops s :
  is_Some (_core s) →
  lifecycle_events (emitted (calls (exec ops s))) =
    lifecycle_events (emitted (calls s)) ++ notifications ops.
Proof.
  revert s. induction ops as [|o ops IH]; intros s Hs; simpl.
  - by rewrite app_nil_r.
  - rewrite IH by by apply after_started.
    rewrite after_lifecycle, <- app_assoc by done. f_equal.
    unfold notifications. simpl. by destruct o.
Qed.

Lemma after_subscriptions_length o s :
  is_Some (_core s) →
  length (subscriptions (after o s)) =
    length (subscriptions s) +
    (if is_pairing o then subscriptions_per_pairing (_options s) else 0).
Proof.
  intros [t Hc]. unfold subscriptions_per_pairing.
  case_op o; case_state; rewrite ?length_app; simpl; lia.
Qed.

Lemma pairings_cons o ops :
  pairings (o :: ops) = (if is_pairing o then 1 else 0) + pairings ops.
Proof. unfold pairings. simpl. by destruct (is_pairing o). Qed.

(** X10.  Subscriptions are made at every pairing and never taken back:
    on a started instance the number of subscriptions grows, over a
    history, by the number of pairings notified times the number of
    subscription flags that are set.  An unpairing removes none, and a core
    that is paired again is subscribed to again. *)
Theorem subscriptions_accumulate ops s :
  is_Some (_core s) →
  length (subscriptions (exec ops s)) =
    length (subscriptions s) + pairings ops * subscriptions_per_pairing (_options s).
Proof.
  revert s. induction ops as [|o ops IH]; intros s Hs; simpl; [lia|].
  rewrite IH by by apply after_started.
  rewrite after_subscriptions_length, after_options_started by done.
  rewrite pairings_cons. destruct (is_pairing o); lia.
Qed.

(** ** Callbacks on an instance that is not started *)

(** A pairing notified before [start_discovery] or [ws_connect] makes the
    callback throw a [TypeError] on [this._core], and nothing changes. *)
Lemma core_paired_before_start s core :
  _core s = None → core_paired core s = (Throw TypeError, s).
Proof. intros Hc. unfold_methods. unfold_M. by rewrite Hc. Qed.

(** An unpairing notified before the start emits its event and then
    throws a [TypeError] on [this._core]. *)
Lemma core_unpaired_before_start s core :
  _core s = None →
  core_unpaired core s =
    (Throw TypeError, set_calls (calls s ++ [emit (ev_core_unpaired core)]) s).
Proof. intros Hc. unfold_methods. unfold_M. simpl. by rewrite Hc. Qed.

Lemma after_transients_not_started o s :
  _core s = None → is_start o = false → transients (after o s) = transients s.
Proof. intros Hc Ho. case_op o; case_state; done. Qed.

Lemma after_subscriptions_not_started o s :
  _core s = None → subscriptions (after o s) = subscriptions s.
Proof. intros Hc. case_op o; case_state; done. Qed.

Lemma after_emitted_not_started o s :
  _core s = None → subscriptions s = [] →
  emitted (calls (after o s)) = emitted (calls s) ++ unpairing_events [o].
Proof.
  intros Hc Hsubs.
  case_op o; rewrite ?Hsubs, ?lookup_nil; simpl; case_state;
    rewrite ?emitted_snoc, ?app_nil_r; done.
Qed.

(** X7.  Until the instance is started the two callbacks throw a
    [TypeError] on [this._core]: [core_paired] at once, so that nothing
    changes and no event is emitted, [core_unpaired] after it has emitted
    its [core_unpaired] event. *)
Theorem callbacks_before_start (options : RoonExtensionOptions) before core :
  no_start before = true →
  core_paired core (exec before (constructor options)) =
    (Throw TypeError, exec before (constructor options)) ∧
  core_unpaired core (exec before (constructor options)) =
    (Throw TypeError,
     set_calls (calls (exec before (constructor options)) ++ [emit (ev_core_unpaired core)])
       (exec before (constructor options))).
Proof.
  intros Hbefore.
  assert (_core (exec before (constructor options)) = None) as Hc
    by by apply exec_not_started.
  split; [by apply core_paired_before_start|by apply core_unpaired_before_start].
Qed.

(** X8.  A pairing that is notified before the start is lost.  Over a
    history without a start, a new instance stays not started, gets no
    slot and no subscription, and the events it emits are the
    [core_unpaired] events of the unpairings notified, in their order: no
    [core_paired] event is emitted for a core paired that early, and no
    subscription is made for it. *)
Theorem nothing_is_paired_before_start (options : RoonExtensionOptions) ops :
  no_start ops = true →
  _core (exec ops (constructor options)) = None ∧
  transients (exec ops (constructor options)) = ∅ ∧
  subscriptions (exec ops (constructor options)) = [] ∧
  emitted (calls (exec ops (constructor options))) = unpairing_events ops.
Proof.
  intros Hops.
  assert (∀ s, _core s = None → subscriptions s = [] →
            _core (exec ops s) = None ∧
            transients (exec ops s) = transients s ∧
            subscriptions (exec ops s) = [] ∧
            emitted (calls (exec ops s)) = emitted (calls s) ++ unpairing_events ops)
    as Hexec.
  { induction ops as [|o ops IH]; intros s Hc Hsubs; simpl.
    - by rewrite app_nil_r.
    - simpl in Hops. apply andb_true_iff in Hops as [Ho Hops].
      apply negb_true_iff in Ho.
      destruct (IH Hops (after o s)) as (-> & -> & -> & ->);
        [by apply after_not_started|by rewrite after_subscriptions_not_started|].
      rewrite after_transients_not_started, after_emitted_not_started,
        <- app_assoc by done.
      repeat split. f_equal. unfold unpairing_events. simpl. by destruct o. }
  destruct (Hexec (constructor options) eq_refl eq_refl) as (? & ? & ? & ?). done.
Qed.

(** X9.  On a started instance [core_paired] returns, having resolved
    the current slot, then emitted [core_paired], then subscribed to the
    outputs if [subscribe_outputs] is set, then to the zones if
    [subscribe_zones] is set: listeners of [core_paired] run before any
    subscription exists.  The slot reference, the configuration and the
    arrays are as before. *)
Theorem core_paired_call_order s t core :
  _core s = Some t →
  ∃ s1,
    core_paired core s = (Ok tt, s1) ∧
    calls s1 =
      calls s ++
      [TransientObject_resolve t core; emit (ev_core_paired core)] ++
      (if truthy (subscribe_outputs (_options s))
       then [transport_subscribe_outputs core (emit_subscribe_outputs core)] else []) ++
      (if truthy (subscribe_zones (_options s))
       then [transport_subscribe_zones core (emit_subscribe_zones core)] else []) ∧
    _core s1 = Some t ∧ _options s1 = _options s ∧ arrays s1 = arrays s.
Proof.
  intros Hc. exists (after (op_core_paired core) s).
  split; [|split; [|split; [|split]]];
    unfold after; simpl; unfold_methods; unfold_M; simpl; rewrite Hc; simpl;
    destruct (truthy (subscribe_outputs _)), (truthy (subscribe_zones _)); simpl;
    rewrite <- ?app_assoc; done.
Qed.

(** ** What a start asks of the API client *)

Lemma requireService_required setting svc required_services optional_services x :
  x ∈ (requireService setting svc (required_services, optional_services)).1 ↔
  x ∈ required_services ∨ (x = svc ∧ setting = Some required).
Proof.
  destruct setting as [[]|]; simpl; rewrite ?elem_of_app, ?list_elem_of_singleton;
    intuition congruence.
Qed.

Lemma requireService_optional setting svc required_services optional_services x :
  x ∈ (requireService setting svc (required_services, optional_services)).2 ↔
  x ∈ optional_services ∨ (x = svc ∧ setting = Some optional).
Proof.
  destruct setting as [[]|]; simpl; rewrite ?elem_of_app, ?list_elem_of_singleton;
    intuition congruence.
Qed.

Lemma requested_required (o : RoonExtensionOptions) svc :
  svc ∈ (requested_services o).1 ↔ setting_of o svc = Some required.
Proof.
  unfold requested_services.
  destruct (requireService (RoonApiImage o) _ _) as [r2 o2] eqn:H2.
  destruct (requireService (RoonApiBrowse o) _ _) as [r1 o1] eqn:H1.
  rewrite requireService_required.
  replace r2 with (requireService (RoonApiImage o) RoonKit_RoonApiImage (r1, o1)).1
    by by rewrite H2.
  rewrite requireService_required.
  replace r1 with (requireService (RoonApiBrowse o) RoonKit_RoonApiBrowse ([], [])).1
    by by rewrite H1.
  rewrite requireService_required, elem_of_nil.
  destruct svc; simpl; intuition congruence.
Qed.

Lemma requested_optional (o : RoonExtensionOptions) svc :
  svc ∈ (requested_services o).2 ↔ setting_of o svc = Some optional.
Proof.
  unfold requested_services.
  destruct (requireService (RoonApiImage o) _ _) as [r2 o2] eqn:H2.
  destruct (requireService (RoonApiBrowse o) _ _) as [r1 o1] eqn:H1.
  rewrite requireService_optional.
  replace o2 with (requireService (RoonApiImage o) RoonKit_RoonApiImage (r1, o1)).2
    by by rewrite H2.
  rewrite requireService_optional.
  replace o1 with (requireService (RoonApiBrowse o) RoonKit_RoonApiBrowse ([], [])).2
    by by rewrite H1.
  rewrite requireService_optional, elem_of_nil.
  destruct svc; simpl; intuition congruence.
Qed.

Ltac solve_sublist :=
  repeat first [apply sublist_nil | apply sublist_skip | apply sublist_cons].

Lemma requested_in_order (o : RoonExtensionOptions) :
  (requested_services o).1 `sublist_of`
    [RoonKit_RoonApiBrowse; RoonKit_RoonApiImage; RoonKit_RoonApiTransport] ∧
  (requested_services o).2 `sublist_of`
    [RoonKit_RoonApiBrowse; RoonKit_RoonApiImage; RoonKit_RoonApiTransport].
Proof.
  unfold requested_services.
  destruct (RoonApiBrowse o) as [[]|], (RoonApiImage o) as [[]|],
    (RoonApiTransport o) as [[]|]; simpl; split; solve_sublist.
Qed.

(** The calls of a start that passes the guard. *)
Lemma start_calls o s :
  is_start o = true → _core s = None →
  ∃ a last,
    calls (after o s) =
      calls s ++
      [new_TransientObject (fresh (dom (transients s)));
       api_init_services (requested_services (_options s)).1
         (requested_services (_options s)).2 a;
       last] ∧
    is_api_start last.
Proof.
  intros Ho Hc. unfold is_api_start.
  case_op o; case_state; rewrite <- ?app_assoc; simpl; eauto 10.
Qed.

(** X1.  The start of an instance calls [init_services] with the three
    service classes sorted by their options: a class is in
    [required_services] exactly when its option is ['required'], in
    [optional_services] exactly when it is ['optional'], and in neither
    list when the option is ['not_required'] or missing.  Both lists keep
    the order browse, image, transport and name no class twice. *)
Theorem init_services_follows_options o s :
  is_start o = true → _core s = None →
  ∃ required_services optional_services a,
    api_init_services required_services optional_services a ∈ calls (after o s) ∧
    (∀ svc, svc ∈ required_services ↔ setting_of (_options s) svc = Some required) ∧
    (∀ svc, svc ∈ optional_services ↔ setting_of (_options s) svc = Some optional) ∧
    required_services `sublist_of`
      [RoonKit_RoonApiBrowse; RoonKit_RoonApiImage; RoonKit_RoonApiTransport] ∧
    optional_services `sublist_of`
      [RoonKit_RoonApiBrowse; RoonKit_RoonApiImage; RoonKit_RoonApiTransport].
Proof.
  intros Ho Hc. destruct (start_calls o s Ho Hc) as (a & last & Hcalls & _).
  exists (requested_services (_options s)).1, (requested_services (_options s)).2, a.
  split; [rewrite Hcalls; set_solver|].
  split; [apply requested_required|]. split; [apply requested_optional|].
  apply requested_in_order.
Qed.

(** X12.  A requirement set with [update_options] before the start is
    the one the start uses: when the options given make a service class
    required, that class is in the [required_services] of the
    [init_services] call that follows. *)
Theorem update_options_then_start_requires o s (p : PartialOptions) svc :
  is_start o = true → _core s = None →
  p_setting_of p svc = Some (Some required) →
  ∃ required_services optional_services a,
    api_init_services required_services optional_services a ∈
      calls (exec [op_update_options p; o] s) ∧
    svc ∈ required_services.
Proof.
  intros Ho Hc Hp. simpl.
  assert (after (op_update_options p) s = set_options (Object_assign (_options s) p) s)
    as ->.
  { unfold after. simpl. unfold_methods. unfold_M. by rewrite Hc. }
  destruct (start_calls o (set_options (Object_assign (_options s) p) s) Ho Hc)
    as (a & last & Hcalls & _).
  exists (requested_services (Object_assign (_options s) p)).1,
    (requested_services (Object_assign (_options s) p)).2, a.
  split; [rewrite Hcalls; set_solver|].
  apply requested_required. simpl.
  destruct svc; simpl in *; by rewrite Hp.
Qed.

Lemma api_calls_snoc cs c :
  api_calls (cs ++ [c]) =
    api_calls cs ++
    match c with
    | api_init_services _ _ _ | api_start_discovery | api_ws_connect _ => [c]
    | _ => []
    end.
Proof. unfold api_calls. rewrite omap_app. by destruct c. Qed.

Lemma after_api_calls_same o s :
  is_Some (_core s) ∨ is_start o = false →
  api_calls (calls (after o s)) = api_calls (calls s).
Proof.
  intros [[t Hc]|Ho]; case_op o; case_state; rewrite ?api_calls_snoc, ?app_nil_r; done.
Qed.

Lemma after_api_used_once o s : api_used_once s → api_used_once (after o s).
Proof.
  unfold api_used_once. intros Hs.
  destruct (_core s) as [t|] eqn:Hc.
  - destruct (after_started o s) as [t' ->]; [by rewrite Hc|].
    rewrite after_api_calls_same; [done|left; by rewrite Hc].
  - destruct (is_start o) eqn:Ho.
    + destruct (after_start_started o s Ho) as [t' ->].
      destruct (start_calls o s Ho Hc) as (a & last & Hcalls & Hlast).
      eexists _, _, a, last. split; [|done].
      rewrite Hcalls. unfold api_calls in *. rewrite omap_app, Hs. simpl.
      destruct Hlast as [->|[w ->]]; done.
    + rewrite after_not_started by done.
      rewrite after_api_calls_same; [done|by right].
Qed.

(** X6.  Over the whole life of an instance the API client is
    initialised and started at most once: until the start it gets no call
    of [init_services], [start_discovery] or [ws_connect]; from the start
    on it has got exactly one [init_services] followed by exactly one of
    [start_discovery] and [ws_connect], whatever is called afterwards. *)
Theorem api_client_started_once (options : RoonExtensionOptions) ops :
  api_used_once (exec ops (constructor options)).
Proof.
  assert (∀ s, api_used_once s → api_used_once (exec ops s)) as Hexec.
  { induction ops as [|o ops IH]; intros s Hs; simpl; [done|].
    by apply IH, after_api_used_once. }
  apply Hexec. reflexivity.
Qed.

(** X2.  Called without an array, [start_discovery] and [ws_connect]
    make a new one: the array handed to [init_services] is not an array
    that existed before, and it holds the status service and nothing
    else. *)
Theorem default_array_holds_status_only s :
  _core s = None →
  (fresh (dom (arrays s)) ∉ dom (arrays s)) ∧
  (∃ s' required_services optional_services,
     start_discovery None s = (Ok tt, s') ∧
     arrays s' = <[fresh (dom (arrays s)) := [this_status]]> (arrays s) ∧
     api_init_services required_services optional_services (fresh (dom (arrays s))) ∈
       calls s') ∧
  (∀ w, ∃ s' required_services optional_services,
     ws_connect w None s = (Ok tt, s') ∧
     arrays s' = <[fresh (dom (arrays s)) := [this_status]]> (arrays s) ∧
     api_init_services required_services optional_services (fresh (dom (arrays s))) ∈
       calls s').
Proof.
  intros Hc. split; [apply is_fresh|].
  assert (alter (λ elements, elements ++ [this_status]) (fresh (dom (arrays s)))
            (<[fresh (dom (arrays s)) := []]> (arrays s)) =
          <[fresh (dom (arrays s)) := [this_status]]> (arrays s)) as Halter.
  { apply map_eq. intros a. destruct (decide (a = fresh (dom (arrays s)))) as [->|Hne].
    - by rewrite lookup_alter_eq, !lookup_insert_eq.
    - by rewrite lookup_alter_ne, !lookup_insert_ne. }
  split; [|intros w];
    eexists _, (requested_services (_options s)).1, (requested_services (_options s)).2;
    (split; [unfold_methods; unfold_M; simpl; rewrite Hc; simpl; reflexivity|]);
    simpl; (split; [exact Halter|]); rewrite <- !app_assoc; set_solver.
Qed.

(** X16.  [ws_connect] is [start_discovery] with another last call: on
    any instance and with any array the two return or throw alike and
    leave the same state, except that the call log of a start that
    succeeds ends with [api.ws_connect(options)] in place of
    [api.start_discovery()]. *)
Theorem ws_connect_initialises_like_start_discovery s a w :
  (run (op_ws_connect w a) s).1 = (run (op_start_discovery a) s).1 ∧
  set_calls [] (after (op_ws_connect w a) s) =
    set_calls [] (after (op_start_discovery a) s) ∧
  ∃ common,
    calls (after (op_start_discovery a) s) =
      common ++ match _core s with Some _ => [] | None => [api_start_discovery] end ∧
    calls (after (op_ws_connect w a) s) =
      common ++ match _core s with Some _ => [] | None => [api_ws_connect w] end.
Proof.
  unfold after. simpl. unfold_methods. unfold_M.
  destruct a as [a|]; simpl; destruct (_core s); simpl;
    (split; [reflexivity|split; [reflexivity|]]);
    eexists; split; try reflexivity; by rewrite app_nil_r.
Qed.

Lemma Object_assign_twice (o : RoonExtensionOptions) (p : PartialOptions) :
  Object_assign (Object_assign o p) p = Object_assign o p.
Proof. destruct p as [[] [] [] [] [] [] []]; reflexivity. Qed.

(** X11.  [update_options] is idempotent: calling it twice with the same
    options leaves the instance as one call does, started or not. *)
Theorem update_options_twice (p : PartialOptions) s :
  exec [op_update_options p; op_update_options p] s = exec [op_update_options p] s.
Proof.
  simpl. unfold after. simpl. unfold_methods. unfold_M.
  destruct (_core s) eqn:Hc; simpl; rewrite Hc; simpl; [done|].
  unfold set_options. simpl. by rewrite Object_assign_twice.
Qed.

(** ** The slots of an instance *)

Lemma after_one_live_slot o s : one_live_slot s → one_live_slot (after o s).
Proof.
  intros [Hcur Hlive].
  destruct (_core s) as [t|] eqn:Hc.
  - destruct (Hcur t eq_refl) as (obj & Hobj & Hnd).
    destruct (is_unpairing o) eqn:Hu; [|destruct (is_pairing o) eqn:Hp].
    + destruct o as [| | | | | |core| | |]; try discriminate.
      destruct (after_unpaired s t core Hc) as [Hc' Htr].
      assert (t ≠ fresh (dom (transients s))) as Hne.
      { intros Heq. apply (is_fresh (dom (transients s))), elem_of_dom.
        rewrite <- Heq, Hobj. eauto. }
      split.
      * intros t' Ht'. rewrite Hc' in Ht'. injection Ht' as <-.
        exists TransientObject.new. by rewrite Htr, lookup_insert_eq.
      * intros t' obj'. rewrite Htr, Hc'.
        destruct (decide (t' = fresh (dom (transients s)))) as [->|Hne']; [done|].
        rewrite lookup_insert_ne by done.
        destruct (decide (t' = t)) as [->|Hne''].
        -- rewrite lookup_alter_eq, Hobj. simpl. intros [= <-]. simpl. discriminate.
        -- rewrite lookup_alter_ne by done. intros Hl Hd.
           specialize (Hlive t' obj' Hl Hd). congruence.
    + destruct o as [| | | | |core| | | |]; try discriminate.
      destruct (after_paired s t core Hc) as [Hc' Htr].
      split.
      * intros t' Ht'. rewrite Hc' in Ht'. injection Ht' as <-.
        exists (TransientObject.resolve core obj).
        rewrite Htr, lookup_alter_eq, Hobj. split; [done|].
        unfold TransientObject.resolve. by destruct (TransientObject.state obj).
      * intros t' obj'. rewrite Htr, Hc'.
        destruct (decide (t' = t)) as [->|Hne]; [done|].
        rewrite lookup_alter_ne by done. intros Hl Hd.
        specialize (Hlive t' obj' Hl Hd). congruence.
    + destruct (after_quiet o s t Hc Hp Hu) as [Hc' Htr].
      split.
      * intros t' Ht'. rewrite Hc' in Ht'. injection Ht' as <-.
        exists obj. by rewrite Htr.
      * intros t' obj'. rewrite Htr, Hc'. intros Hl Hd.
        specialize (Hlive t' obj' Hl Hd). congruence.
  - destruct (is_start o) eqn:Ho.
    + destruct (after_start_fresh o s Ho Hc) as [Hc' Htr].
      split.
      * intros t' Ht'. rewrite Hc' in Ht'. injection Ht' as <-.
        exists TransientObject.new. by rewrite Htr, lookup_insert_eq.
      * intros t' obj'. rewrite Htr, Hc'.
        destruct (decide (t' = fresh (dom (transients s)))) as [->|Hne]; [done|].
        rewrite lookup_insert_ne by done. intros Hl Hd.
        specialize (Hlive t' obj' Hl Hd). congruence.
    + pose proof (after_transients_not_started o s Hc Ho) as Htr.
      split.
      * intros t'. by rewrite after_not_started.
      * intros t' obj'. rewrite Htr. intros Hl Hd.
        specialize (Hlive t' obj' Hl Hd). congruence.
Qed.

(** X18.  Whatever happens to an instance, it has at most one slot that
    has not been disposed of, and that one is the slot [_core] refers to:
    the slot is made at the start, and each one that an unpairing replaces
    is disposed of first. *)
Theorem current_slot_is_the_live_one (options : RoonExtensionOptions) ops :
  one_live_slot (exec ops (constructor options)).
Proof.
  assert (∀ s, one_live_slot s → one_live_slot (exec ops s)) as Hexec.
  { induction ops as [|o ops IH]; intros s Hs; simpl; [done|].
    by apply IH, after_one_live_slot. }
  apply Hexec. split; [discriminate|]. intros t obj. simpl. by rewrite lookup_empty.
Qed.

End Properties.

(** * The properties on the sample environment *)

Section Samples.
#[local] Existing Instance sample_interfaces.

Lemma C1_get_core_waits_then_resolves_witness :
  is_start (op_start_discovery None) = true ∧
  (run (op_start_discovery None) (constructor sample_options)).1 = Ok tt ∧
  no_pairing [op_get_core; op_core_unpaired (9 : @RoonCore sample_interfaces)] = true ∧
  ∃ p,
    get_core (exec [op_get_core; op_core_unpaired (9 : @RoonCore sample_interfaces)]
                (after (op_start_discovery None) (constructor sample_options))) =
      (Ok p, exec [op_get_core; op_core_unpaired (9 : @RoonCore sample_interfaces)]
               (after (op_start_discovery None) (constructor sample_options))) ∧
    settled (exec [op_get_core; op_core_unpaired (9 : @RoonCore sample_interfaces)]
               (after (op_start_discovery None) (constructor sample_options))) p =
      TransientObject.Pending ∧
    ∀ more C1 later,
      no_pairing more = true → no_unpairing more = true →
      no_unpairing later = true →
      settled (exec ([op_get_core; op_core_unpaired (9 : @RoonCore sample_interfaces)] ++
                     more ++ op_core_paired C1 :: later)
                 (after (op_start_discovery None) (constructor sample_options))) p =
        TransientObject.Resolved C1.
Proof.
  split; [reflexivity|]. split; [vm_compute; reflexivity|]. split; [reflexivity|].
  destruct (C1_get_core_waits_then_resolves (constructor sample_options)
              (op_start_discovery None)
              [op_get_core; op_core_unpaired (9 : @RoonCore sample_interfaces)]
              eq_refl eq_refl eq_refl) as (p & Hget & Hpending & _ & Hresolved).
  exists p. split; [exact Hget|]. split; [exact Hpending|].
  intros more C1 later Hp Hu Hl. exact (proj2 (Hresolved more C1 later Hp Hu Hl)).
Defined.

(** C1, as stated, fails when an unpairing is notified between a call of
    [get_core] and the pairing.  The instance is started and nothing is
    paired; [get_core] returns the promise of the slot 0, pending; an
    unpairing is notified, then the pairing with the core 7.  The promise
    is still pending: it is the one of the slot that the unpairing
    discarded.  A call made after the pairing gets the core 7, from the
    slot 1. *)
Lemma C1_unpairing_orphans_waiter :
  (run (op_start_discovery (Some 0)) sample_new).1 = Ok tt ∧
  get_core sample_started = (Ok (promise_of 0), sample_started) ∧
  settled sample_started (promise_of 0) = TransientObject.Pending ∧
  settled (exec [op_core_unpaired (9 : @RoonCore sample_interfaces);
                 op_core_paired (7 : @RoonCore sample_interfaces)] sample_started)
    (promise_of 0) = TransientObject.Pending ∧
  settled (exec [op_core_unpaired (9 : @RoonCore sample_interfaces);
                 op_core_paired (7 : @RoonCore sample_interfaces)] sample_started)
    (promise_of 0) ≠ TransientObject.Resolved (7 : @RoonCore sample_interfaces) ∧
  (get_core (exec [op_core_unpaired (9 : @RoonCore sample_interfaces);
                   op_core_paired (7 : @RoonCore sample_interfaces)] sample_started)).1 =
    Ok (promise_of 1) ∧
  settled (exec [op_core_unpaired (9 : @RoonCore sample_interfaces);
                 op_core_paired (7 : @RoonCore sample_interfaces)] sample_started)
    (promise_of 1) = TransientObject.Resolved (7 : @RoonCore sample_interfaces).
Proof.
  split; [vm_compute; reflexivity|]. split; [reflexivity|].
  split; [vm_compute; reflexivity|]. split; [vm_compute; reflexivity|].
  split; [vm_compute; discriminate|]. split; vm_compute; reflexivity.
Qed.

(** The promise of the first slot, before and after the core 7 is paired. *)
Example get_core_sample :
  (get_core sample_started).1 = Ok (promise_of 0) ∧
  settled sample_started (promise_of 0) = TransientObject.Pending ∧
  settled (exec [op_core_paired (7 : @RoonCore sample_interfaces); op_set_status "paired" None] sample_started)
    (promise_of 0) = TransientObject.Resolved (7 : @RoonCore sample_interfaces).
Proof. vm_compute. done. Qed.

Lemma C2_unpair_replaces_slot_witness :
  _core sample_started = Some 0 ∧
  ∃ s' t',
    core_unpaired (7 : @RoonCore sample_interfaces) sample_started = (Ok tt, s') ∧
    calls s' = calls sample_started ++ [emit (ev_core_unpaired (7 : @RoonCore sample_interfaces));
                                        TransientObject_dispose 0;
                                        new_TransientObject t'] ∧
    (t' ∉ dom (transients sample_started)) ∧
    _core s' = Some t' ∧
    transients s' !! t' = Some TransientObject.new ∧
    (∀ obj, transients sample_started !! 0 = Some obj →
            transients s' !! 0 = Some (TransientObject.dispose obj)) ∧
    (∀ ops, no_pairing ops = true →
       ∃ p, get_core (exec ops s') = (Ok p, exec ops s') ∧
            (∀ more, no_pairing more = true →
               settled (exec (ops ++ more) s') p = TransientObject.Pending) ∧
            (∀ more newCore later,
               no_pairing more = true → no_unpairing more = true →
               no_unpairing later = true →
               settled (exec (ops ++ more ++ op_core_paired newCore :: later) s') p =
                 TransientObject.Resolved newCore)).
Proof.
  split; [reflexivity|].
  apply (C2_unpair_replaces_slot sample_started 0 (7 : @RoonCore sample_interfaces)). reflexivity.
Defined.

(** Pairing, unpairing: the new promise is pending, the old one keeps
    its core. *)
Example unpair_sample :
  let s := exec [op_core_paired (7 : @RoonCore sample_interfaces); op_core_unpaired (7 : @RoonCore sample_interfaces)] sample_started in
  (get_core s).1 = Ok (promise_of 1) ∧
  settled s (promise_of 1) = TransientObject.Pending ∧
  settled s (promise_of 0) = TransientObject.Resolved (7 : @RoonCore sample_interfaces).
Proof. vm_compute. done. Qed.

Lemma C5_start_is_one_shot_witness :
  no_start [op_set_status "starting" None; op_get_core] = true ∧
  is_start (op_start_discovery None) = true ∧
  is_start (op_ws_connect ("ws://core" : @WSConnectOptions sample_interfaces) None) = true ∧
  (run (op_start_discovery None)
     (exec [op_set_status "starting" None; op_get_core] (constructor sample_options))).1 = Ok tt ∧
  (run (op_ws_connect ("ws://core" : @WSConnectOptions sample_interfaces) None)
     (exec [op_core_paired (7 : @RoonCore sample_interfaces)]
        (after (op_start_discovery None)
           (exec [op_set_status "starting" None; op_get_core] (constructor sample_options))))).1 =
    Throw already_started.
Proof.
  split; [reflexivity|]. split; [reflexivity|]. split; [reflexivity|].
  apply (C5_start_is_one_shot sample_options
           [op_set_status "starting" None; op_get_core]
           (op_start_discovery None)
           [op_core_paired (7 : @RoonCore sample_interfaces)]
           (op_ws_connect ("ws://core" : @WSConnectOptions sample_interfaces) None)); reflexivity.
Defined.

Lemma C6_update_options_until_started_witness :
  no_start [op_get_core] = true ∧
  is_start (op_start_discovery None) = true ∧
  (update_options late_subscription
     (exec [] (after (op_start_discovery None) (exec [op_get_core] (constructor sample_options)))) =
     (Throw cannot_update,
      exec [] (after (op_start_discovery None) (exec [op_get_core] (constructor sample_options)))) ∧
   ∃ opts,
     update_options late_subscription (exec [op_get_core] (constructor sample_options)) =
       (Ok tt, set_options opts (exec [op_get_core] (constructor sample_options))) ∧
     subscribe_zones opts = Some true ∧
     RoonApiImage opts = Some optional).
Proof.
  split; [reflexivity|]. split; [reflexivity|].
  destruct (C6_update_options_until_started sample_options [op_get_core]
              (op_start_discovery None) [] late_subscription eq_refl eq_refl)
    as (Hthrow & opts & Hok & _ & _ & _ & Himage & _ & _ & Hzones).
  split; [exact Hthrow|].
  exists opts. split; [exact Hok|]. split; [exact Hzones|exact Himage].
Defined.

Lemma C7_get_core_before_start_witness :
  no_start [op_set_status "idle" None; op_core_unpaired (7 : @RoonCore sample_interfaces)] = true ∧
  get_core (exec [op_set_status "idle" None; op_core_unpaired (7 : @RoonCore sample_interfaces)]
              (constructor sample_options)) =
    (Throw not_started,
     exec [op_set_status "idle" None; op_core_unpaired (7 : @RoonCore sample_interfaces)]
       (constructor sample_options)).
Proof.
  split; [reflexivity|].
  apply (C7_get_core_before_start sample_options
           [op_set_status "idle" None; op_core_unpaired (7 : @RoonCore sample_interfaces)]).
  reflexivity.
Defined.

(** [set_status] with logging on, and with [log_level: 'none']. *)
Example set_status_sample :
  calls (after (op_set_status "lost" (Some true)) (constructor sample_options)) =
    calls (constructor sample_options) ++
    [status_set_status "lost" true; console_error "Extension Error: lost"] ∧
  calls (after (op_set_status "lost" (Some true)) (constructor subscribing_options)) =
    calls (constructor subscribing_options) ++ [status_set_status "lost" true].
Proof. vm_compute. done. Qed.

Lemma C9_updates_become_events_witness :
  core_paired (7 : @RoonCore sample_interfaces) sample_subscribing =
    (Ok tt, after (op_core_paired (7 : @RoonCore sample_interfaces)) sample_subscribing) ∧
  subscribe_zones (_options sample_subscribing) = Some true ∧
  ∃ i,
    subscriptions (after (op_core_paired (7 : @RoonCore sample_interfaces)) sample_subscribing) !! i =
      Some (zones_subscription (7 : @RoonCore sample_interfaces)
              (emit_subscribe_zones (7 : @RoonCore sample_interfaces))) ∧
    ∀ updates : list (string * nat),
      emitted (calls (exec (map (λ u, op_deliver_zones i u.1 u.2) updates)
                        (after (op_core_paired (7 : @RoonCore sample_interfaces))
                           sample_subscribing))) =
        emitted (calls (after (op_core_paired (7 : @RoonCore sample_interfaces))
                          sample_subscribing)) ++
        map (λ u, ev_subscribe_zones (7 : @RoonCore sample_interfaces) u.1 u.2) updates.
Proof.
  split; [reflexivity|]. split; [reflexivity|].
  destruct (C9_updates_become_events sample_subscribing 7
              (after (op_core_paired (7 : @RoonCore sample_interfaces)) sample_subscribing)
              eq_refl) as (_ & Hzones & _).
  destruct (Hzones eq_refl) as (i & _ & Hi & _ & Hrun).
  exists i. split; [exact Hi|exact Hrun].
Defined.

(** Two zone updates and one output update after a pairing. *)
Example subscription_sample :
  emitted (calls (exec [op_core_paired (7 : @RoonCore sample_interfaces);
                        op_deliver_zones 1 "Subscribed" 10;
                        op_deliver_outputs 0 "Subscribed" 20;
                        op_deliver_zones 1 "Changed" 11] sample_subscribing)) =
    [ev_core_paired (7 : @RoonCore sample_interfaces);
     ev_subscribe_zones (7 : @RoonCore sample_interfaces) "Subscribed" 10;
     ev_subscribe_outputs (7 : @RoonCore sample_interfaces) "Subscribed" 20;
     ev_subscribe_zones (7 : @RoonCore sample_interfaces) "Changed" 11].
Proof. vm_compute. done. Qed.

Lemma C10_status_service_is_appended_witness :
  _core sample_new = None ∧
  arrays sample_new !! 0 = Some [host_service ("volume" : @HostService sample_interfaces)] ∧
  ∃ required_services optional_services s',
    start_discovery (Some 0) sample_new = (Ok tt, s') ∧
    arrays s' !! 0 =
      Some ([host_service ("volume" : @HostService sample_interfaces)] ++ [this_status]) ∧
    calls s' = calls sample_new ++
      [new_TransientObject (fresh (dom (transients sample_new)));
       api_init_services required_services optional_services 0;
       api_start_discovery].
Proof.
  split; [reflexivity|]. split; [reflexivity|].
  destruct (C10_status_service_is_appended sample_new 0
              [host_service ("volume" : @HostService sample_interfaces)] eq_refl eq_refl)
    as (req & opt & (s' & Hrun & Harr & _ & Hcalls) & _).
  exists req, opt, s'. split; [exact Hrun|]. split; [exact Harr|exact Hcalls].
Defined.

(** C10, as stated, fails on a started instance: the guard throws before
    the array is touched.  Here the host passes the array at reference 0 a
    second time; the call throws, the array still has its two elements and
    nothing is handed to [init_services]. *)
Lemma C10_started_instance_leaves_array :
  arrays sample_started !! 0 =
    Some [host_service ("volume" : @HostService sample_interfaces); this_status] ∧
  start_discovery (Some 0) sample_started = (Throw already_started, sample_started) ∧
  ws_connect ("ws://core" : @WSConnectOptions sample_interfaces) (Some 0) sample_started =
    (Throw already_started, sample_started) ∧
  arrays (start_discovery (Some 0) sample_started).2 !! 0 ≠
    Some ([host_service ("volume" : @HostService sample_interfaces); this_status] ++
          [this_status]).
Proof.
  split; [reflexivity|]. split; [reflexivity|]. split; [reflexivity|].
  vm_compute. discriminate.
Qed.

(** C4.  The constructor is the only place where a subscription flag
    makes the transport service required.  When the flag comes with
    [update_options], the configuration that [start_discovery] uses has
    the flag but not the requirement, and [init_services] gets no
    transport service in its list of required services; the same options
    given to the constructor put it there. *)
Lemma C4_late_subscription_leaves_transport_out :
  subscribe_zones
    (_options (exec [op_update_options late_subscription; op_start_discovery None]
                 (constructor sample_options))) = Some true ∧
  RoonApiTransport
    (_options (exec [op_update_options late_subscription; op_start_discovery None]
                 (constructor sample_options))) = None ∧
  calls (exec [op_update_options late_subscription; op_start_discovery None]
           (constructor sample_options)) =
    [RoonKit_createRoonApi ("sample extension" : @RoonExtensionDescription sample_interfaces) None;
     new_RoonApiStatus;
     new_TransientObject 0;
     api_init_services [] [RoonKit_RoonApiImage] 0;
     api_start_discovery] ∧
  calls (exec [op_start_discovery None]
           (constructor (Object_assign sample_options late_subscription))) =
    [RoonKit_createRoonApi ("sample extension" : @RoonExtensionDescription sample_interfaces) None;
     new_RoonApiStatus;
     new_TransientObject 0;
     api_init_services [RoonKit_RoonApiTransport] [RoonKit_RoonApiImage] 0;
     api_start_discovery].
Proof. vm_compute. done. Qed.

(** ** Further properties on the sample environment *)

Lemma init_services_follows_options_witness :
  is_start (op_start_discovery None) = true ∧
  _core (constructor subscribing_options) = None ∧
  ∃ required_services optional_services a,
    api_init_services required_services optional_services a ∈
      calls (after (op_start_discovery None) (constructor subscribing_options)) ∧
    RoonKit_RoonApiBrowse ∈ required_services ∧
    RoonKit_RoonApiTransport ∈ required_services ∧
    RoonKit_RoonApiImage ∉ optional_services.
Proof.
  split; [reflexivity|]. split; [reflexivity|].
  destruct (init_services_follows_options (op_start_discovery None)
              (constructor subscribing_options) eq_refl eq_refl)
    as (req & opt & a & Hin & Hreq & Hopt & _).
  exists req, opt, a. split; [exact Hin|].
  split; [apply Hreq; reflexivity|]. split; [apply Hreq; reflexivity|].
  intros Himage. apply Hopt in Himage. discriminate Himage.
Defined.

Lemma default_array_holds_status_only_witness :
  _core sample_new = None ∧
  ∃ s' required_services optional_services,
    start_discovery None sample_new = (Ok tt, s') ∧
    arrays s' = <[fresh (dom (arrays sample_new)) := [this_status]]> (arrays sample_new) ∧
    api_init_services required_services optional_services
      (fresh (dom (arrays sample_new))) ∈ calls s'.
Proof.
  split; [reflexivity|].
  exact (proj1 (proj2 (default_array_holds_status_only sample_new eq_refl))).
Defined.

Lemma failed_start_changes_nothing_witness :
  is_start (op_ws_connect ("ws://core" : @WSConnectOptions sample_interfaces) (Some 0)) = true ∧
  is_Some (_core sample_started) ∧
  (run (op_ws_connect ("ws://core" : @WSConnectOptions sample_interfaces) (Some 0))
     sample_started).1 = Throw already_started ∧
  calls (after (op_ws_connect ("ws://core" : @WSConnectOptions sample_interfaces) (Some 0))
           sample_started) = calls sample_started.
Proof.
  split; [reflexivity|]. split; [exists 0; reflexivity|].
  destruct (failed_start_changes_nothing
              (op_ws_connect ("ws://core" : @WSConnectOptions sample_interfaces) (Some 0))
              sample_started eq_refl (ex_intro _ 0 eq_refl)) as (Hthrow & Hcalls & _).
  split; [exact Hthrow|exact Hcalls].
Defined.

Lemma options_frozen_once_started_witness :
  is_Some (_core sample_started) ∧
  _options (exec [op_update_options late_subscription;
                  op_core_paired (7 : @RoonCore sample_interfaces)] sample_started) =
    _options sample_started.
Proof.
  split; [exists 0; reflexivity|].
  apply (options_frozen_once_started
           [op_update_options late_subscription;
            op_core_paired (7 : @RoonCore sample_interfaces)] sample_started).
  exists 0. reflexivity.
Defined.

Lemma host_arrays_untouched_once_started_witness :
  is_Some (_core sample_started) ∧
  arrays sample_started !! 0 =
    Some [host_service ("volume" : @HostService sample_interfaces); this_status] ∧
  arrays (exec [op_start_discovery (Some 0); op_new_array []] sample_started) !! 0 =
    Some [host_service ("volume" : @HostService sample_interfaces); this_status].
Proof.
  split; [exists 0; reflexivity|]. split; [reflexivity|].
  apply (host_arrays_untouched_once_started
           [op_start_discovery (Some 0); op_new_array []] sample_started 0).
  - exists 0. reflexivity.
  - reflexivity.
Defined.

Lemma callbacks_before_start_witness :
  no_start [op_get_core] = true ∧
  core_paired (7 : @RoonCore sample_interfaces)
    (exec [op_get_core] (constructor sample_options)) =
    (Throw TypeError, exec [op_get_core] (constructor sample_options)) ∧
  core_unpaired (7 : @RoonCore sample_interfaces)
    (exec [op_get_core] (constructor sample_options)) =
    (Throw TypeError,
     set_calls (calls (exec [op_get_core] (constructor sample_options)) ++
                [emit (ev_core_unpaired (7 : @RoonCore sample_interfaces))])
       (exec [op_get_core] (constructor sample_options))).
Proof.
  split; [reflexivity|].
  apply (callbacks_before_start sample_options [op_get_core] 7). reflexivity.
Defined.

Lemma nothing_is_paired_before_start_witness :
  no_start [op_core_paired (7 : @RoonCore sample_interfaces);
            op_core_unpaired (7 : @RoonCore sample_interfaces)] = true ∧
  emitted (calls (exec [op_core_paired (7 : @RoonCore sample_interfaces);
                        op_core_unpaired (7 : @RoonCore sample_interfaces)]
                    (constructor subscribing_options))) =
    [ev_core_unpaired (7 : @RoonCore sample_interfaces)] ∧
  subscriptions (exec [op_core_paired (7 : @RoonCore sample_interfaces);
                       op_core_unpaired (7 : @RoonCore sample_interfaces)]
                   (constructor subscribing_options)) = [].
Proof.
  split; [reflexivity|].
  destruct (nothing_is_paired_before_start subscribing_options
              [op_core_paired (7 : @RoonCore sample_interfaces);
               op_core_unpaired (7 : @RoonCore sample_interfaces)] eq_refl)
    as (_ & _ & Hsubs & Hemitted).
  split; [exact Hemitted|exact Hsubs].
Defined.

Lemma core_paired_call_order_witness :
  _core sample_subscribing = Some 0 ∧
  ∃ s1,
    core_paired (7 : @RoonCore sample_interfaces) sample_subscribing = (Ok tt, s1) ∧
    calls s1 =
      calls sample_subscribing ++
      [TransientObject_resolve 0 (7 : @RoonCore sample_interfaces);
       emit (ev_core_paired (7 : @RoonCore sample_interfaces));
       transport_subscribe_outputs (7 : @RoonCore sample_interfaces)
         (emit_subscribe_outputs (7 : @RoonCore sample_interfaces));
       transport_subscribe_zones (7 : @RoonCore sample_interfaces)
         (emit_subscribe_zones (7 : @RoonCore sample_interfaces))].
Proof.
  split; [reflexivity|].
  destruct (core_paired_call_order sample_subscribing 0 7 eq_refl)
    as (s1 & Hrun & Hcalls & _).
  exists s1. split; [exact Hrun|exact Hcalls].
Defined.

Lemma subscriptions_accumulate_witness :
  is_Some (_core sample_subscribing) ∧
  length (subscriptions
            (exec [op_core_paired (7 : @RoonCore sample_interfaces);
                   op_core_unpaired (7 : @RoonCore sample_interfaces);
                   op_core_paired (7 : @RoonCore sample_interfaces)] sample_subscribing)) = 4.
Proof.
  split; [exists 0; reflexivity|].
  apply (subscriptions_accumulate
           [op_core_paired (7 : @RoonCore sample_interfaces);
            op_core_unpaired (7 : @RoonCore sample_interfaces);
            op_core_paired (7 : @RoonCore sample_interfaces)] sample_subscribing).
  exists 0. reflexivity.
Defined.

Lemma update_options_then_start_requires_witness :
  is_start (op_start_discovery None) = true ∧
  _core (constructor sample_options) = None ∧
  p_setting_of require_transport RoonKit_RoonApiTransport = Some (Some required) ∧
  ∃ required_services optional_services a,
    api_init_services required_services optional_services a ∈
      calls (exec [op_update_options require_transport; op_start_discovery None]
               (constructor sample_options)) ∧
    RoonKit_RoonApiTransport ∈ required_services.
Proof.
  split; [reflexivity|]. split; [reflexivity|]. split; [reflexivity|].
  apply (update_options_then_start_requires (op_start_discovery None)
           (constructor sample_options) require_transport RoonKit_RoonApiTransport);
    reflexivity.
Defined.

Lemma host_calls_emit_nothing_witness :
  is_host_call (op_set_status "ready" None) = true ∧
  emitted (calls (after (op_set_status "ready" None) sample_started)) =
    emitted (calls sample_started).
Proof.
  split; [reflexivity|].
  apply (host_calls_emit_nothing (op_set_status "ready" None) sample_started).
  reflexivity.
Defined.

Lemma console_gets_one_line_per_status_witness :
  is_Some (_core sample_started) ∧
  console_lines
    (calls (exec [op_set_status "ready" None;
                  op_core_paired (7 : @RoonCore sample_interfaces);
                  op_set_status "lost" (Some true)] sample_started)) =
    [console_log "Extension Status: ready"; console_error "Extension Error: lost"].
Proof.
  split; [exists 0; reflexivity|].
  apply (console_gets_one_line_per_status
           [op_set_status "ready" None;
            op_core_paired (7 : @RoonCore sample_interfaces);
            op_set_status "lost" (Some true)] sample_started).
  exists 0. reflexivity.
Defined.

Lemma notifications_become_events_witness :
  is_Some (_core sample_subscribing) ∧
  lifecycle_events
    (emitted (calls (exec [op_core_paired (7 : @RoonCore sample_interfaces);
                           op_deliver_zones 1 ("Changed" : @RoonSubscriptionResponse sample_interfaces)
                             (11 : @RoonApiTransportZones sample_interfaces);
                           op_core_unpaired (7 : @RoonCore sample_interfaces)]
                       sample_subscribing))) =
    [ev_core_paired (7 : @RoonCore sample_interfaces);
     ev_core_unpaired (7 : @RoonCore sample_interfaces)].
Proof.
  split; [exists 0; reflexivity|].
  apply (notifications_become_events
           [op_core_paired (7 : @RoonCore sample_interfaces);
            op_deliver_zones 1 ("Changed" : @RoonSubscriptionResponse sample_interfaces)
                             (11 : @RoonApiTransportZones sample_interfaces);
            op_core_unpaired (7 : @RoonCore sample_interfaces)] sample_subscribing).
  exists 0. reflexivity.
Defined.

(** The API client over a life with three attempts to start. *)
Example api_client_sample :
  api_calls (calls (exec [op_core_unpaired (7 : @RoonCore sample_interfaces);
                          op_ws_connect ("ws://core" : @WSConnectOptions sample_interfaces) None;
                          op_start_discovery None;
                          op_core_paired (7 : @RoonCore sample_interfaces);
                          op_ws_connect ("ws://core" : @WSConnectOptions sample_interfaces) None]
                     (constructor sample_options))) =
    [api_init_services [] [RoonKit_RoonApiImage] 0;
     api_ws_connect ("ws://core" : @WSConnectOptions sample_interfaces)].
Proof. vm_compute. done. Qed.

End Samples.
